(** * go-promise: the Future side of a promise (future.go)

    A shallow embedding of [future.go] and the properties of its
    registration, chaining and cancellation operations.

    Conventions of the model.
    - A [*Future] is an address in a store of [Future] records; the nil
      pointer is address [0], never allocated.
    - [Future.val] points to a [futureVal] that is never changed after it
      has been published (the comment on the field says so); the pointer is
      kept as the address, which [CompareAndSwapPointer] compares, together
      with the object it points to.
    - Go function values are Rocq functions on [World], the part of the
      program state that callbacks work on; the nil function is [None].
      The store of Futures is not part of [World]: what a callback does to
      a Future is a call of its own, and histories interleave such calls.
      Every invocation made by the code of [future.go] is also recorded,
      in order, in the [calls] log.
    - Every [for] loop runs on fuel; [OutOfFuel] is a loop that is still
      running.  [sched] lists what other goroutines do to the store between
      the atomic load and the compare-and-swap of successive attempts; the
      empty list is a call that runs undisturbed.
    - Slices are lists.  A snapshot that has been displaced is not read
      again, so the backing array that [append] may share between the old
      and the new slice does not show in a call that runs undisturbed.
    - [chOut] and [GetChan] are left out: nothing else in [future.go]
      reads or writes that channel. *)

From stdpp Require Import base option list gmap strings.
From Stdlib Require Import ZArith Lia.

(** ** Values *)

(** The payloads ([interface{}] values) carried by results. *)
Inductive Value :=
| VNil
| VInt (n : Z)
| VString (str : string)
| VError (msg : string)
| VCancelledError.

(** What a panic carries. *)
Inductive PanicValue :=
| PanicError (msg : string)      (* panic(errors.New(msg)) *)
| PanicNilDeref                  (* nil pointer dereference, call of a nil func *)
| PanicTypeAssertion.            (* failed x.(T) *)

(** A [*Future] is an address. *)
Abbreviation ptr := nat (only parsing).
Definition nil_ptr : ptr := 0.

(** [type callbackType int] and its four constants. *)
Definition callbackType := Z.
Definition CALLBACK_DONE : callbackType := 0%Z.
Definition CALLBACK_FAIL : callbackType := 1%Z.
Definition CALLBACK_ALWAYS : callbackType := 2%Z.
Definition CALLBACK_CANCEL : callbackType := 3%Z.

(** Modelled from the spec: the kind of a Result, "kind ∈ {Success, Failure,
    Cancelled}" (the declaration of [resultType] and of its constants is in
    promise.go, which is not among the sources). *)
Inductive resultType := RESULT_SUCCESS | RESULT_FAILURE | RESULT_CANCELLED.

#[global] Instance resultType_eq_dec : EqDecision resultType.
Proof. solve_decision. Defined.

(** Modelled from the spec: a Result, "kind" and "payload" (the declaration of
    [PromiseResult] is in promise.go); the field names are those [future.go]
    uses, [r.Typ] and [r.Result]. *)
Record PromiseResult := mkResult { Result : Value; Typ : resultType }.

(** Modelled from the spec: a Promise "exclusively owns one Future"; the
    struct is declared in promise.go and [future.go] only reads its embedded
    [*Future]. *)
Record Promise := mkPromise { PFuture : ptr }.

Section Model.

Context {World : Type}.

(** ** Function values *)

(** [func(v interface{})], [func()] and [func(v interface{}) *Future]. *)
Definition func1 := option (Value → World → World).
Definition func0 := option (World → World).
Definition pipeFunc := option (Value → World → World * ptr).

(** An [interface{}] argument as [addCallback] receives it: the nil
    interface, or a dynamic type with its value.  A nil func stored in an
    interface is [IFunc1 None], which is not the nil interface. *)
Inductive iface :=
| INil
| IFunc1 (f : func1)
| IFunc0 (f : func0)
| IOther (tyname : string).

(** The invocations the code performs. *)
Inductive Call :=
| CallFunc1 (f : Value → World → World) (v : Value)
| CallFunc0 (f : World → World)
| CallPipe (f : Value → World → World * ptr) (v : Value)
| CallFeed (from : ptr) (downstream : Promise).

(** ** Data model *)

Record pipe := mkPipe {
  pipeDoneTask : pipeFunc;
  pipeFailTask : pipeFunc;
  pipePromise : Promise
}.

Definition getPipe (this : pipe) (isResolved : bool) : pipeFunc * Promise :=
  if isResolved then (pipeDoneTask this, pipePromise this)
  else (pipeFailTask this, pipePromise this).

Record futureVal := mkVal {
  dones : list func1;
  fails : list func1;
  always : list func1;
  cancels : list func0;
  pipes : list pipe;
  r : option PromiseResult
}.

(** A pointer to a [futureVal]. *)
Record valRef := mkRef { addr : nat; obj : futureVal }.

Record Future := mkFuture {
  Id : Z;
  chEnd : bool;              (* true once the channel has been closed *)
  val : valRef;
  cancelStatus : Z
}.

Record State := mkState {
  futures : gmap nat Future;
  next : nat;                (* the next address the allocator hands out *)
  world : World;
  calls : list Call
}.

(** ** Outcomes of a call *)

Inductive Outcome (A : Type) :=
| Returned (a : A) (s : State)
| Panicked (e : PanicValue) (s : State)
| Blocked (s : State)
| OutOfFuel (s : State).

#[global] Arguments Returned {A} a s.
#[global] Arguments Panicked {A} e s.
#[global] Arguments Blocked {A} s.
#[global] Arguments OutOfFuel {A} s.

Definition bind {A B} (m : Outcome A) (k : A → State → Outcome B) : Outcome B :=
  match m with
  | Returned a s => k a s
  | Panicked e s => Panicked e s
  | Blocked s => Blocked s
  | OutOfFuel s => OutOfFuel s
  end.

Definition state_of {A} (m : Outcome A) : State :=
  match m with
  | Returned _ s | Panicked _ s | Blocked s | OutOfFuel s => s
  end.

(** ** State updates *)

Definition set_futures (m : gmap nat Future) (s : State) : State :=
  mkState m (next s) (world s) (calls s).

Definition set_val (v : valRef) (f : Future) : Future :=
  mkFuture (Id f) (chEnd f) v (cancelStatus f).

Definition set_cancelStatus (c : Z) (f : Future) : Future :=
  mkFuture (Id f) (chEnd f) (val f) c.

(** Taking the address of a new object. *)
Definition alloc (s : State) : nat * State :=
  (next s, mkState (futures s) (S (next s)) (world s) (calls s)).

(** What the other goroutines do before this one's next atomic step. *)
Definition Sched := list (State → State).

Definition interfere (sched : Sched) (s : State) : State * Sched :=
  match sched with
  | [] => (s, [])
  | e :: sched' => (e s, sched')
  end.

(** ** sync/atomic on the fields of a Future *)

Definition LoadPointer (this : ptr) (s : State) : option valRef :=
  val <$> futures s !! this.

Definition CompareAndSwapPointer (this : ptr) (old : nat) (new : valRef)
    (s : State) : option (bool * State) :=
  match futures s !! this with
  | None => None
  | Some f =>
      if decide (addr (val f) = old)
      then Some (true, set_futures (<[this := set_val new f]> (futures s)) s)
      else Some (false, s)
  end.

Definition LoadInt32 (this : ptr) (s : State) : option Z :=
  cancelStatus <$> futures s !! this.

Definition CompareAndSwapInt32 (this : ptr) (old new : Z) (s : State)
    : option (bool * State) :=
  match futures s !! this with
  | None => None
  | Some f =>
      if decide (cancelStatus f = old)
      then Some (true, set_futures (<[this := set_cancelStatus new f]> (futures s)) s)
      else Some (false, s)
  end.

(** ** Calling function values *)

Definition invoke1 (f : func1) (v : Value) (s : State) : Outcome unit :=
  match f with
  | None => Panicked PanicNilDeref s
  | Some g =>
      Returned tt (mkState (futures s) (next s) (g v (world s))
                           (calls s ++ [CallFunc1 g v]))
  end.

Definition invoke0 (f : func0) (s : State) : Outcome unit :=
  match f with
  | None => Panicked PanicNilDeref s
  | Some g =>
      Returned tt (mkState (futures s) (next s) (g (world s))
                           (calls s ++ [CallFunc0 g]))
  end.

Definition invokePipe (f : pipeFunc) (v : Value) (s : State) : Outcome ptr :=
  match f with
  | None => Panicked PanicNilDeref s
  | Some g =>
      Returned (g v (world s)).2
               (mkState (futures s) (next s) (g v (world s)).1
                        (calls s ++ [CallPipe g v]))
  end.

(** ** RequestCancel, IsCancelled *)

Definition RequestCancel (sched : Sched) (this : ptr) (s : State) : Outcome bool :=
  match LoadInt32 this s with
  | None => Panicked PanicNilDeref s
  | Some ccstatus =>
      if (ccstatus =? 0)%Z then
        let '(s1, _) := interfere sched s in
        match CompareAndSwapInt32 this 0 1 s1 with
        | None => Panicked PanicNilDeref s1
        | Some (_, s2) => Returned true s2
        end
      else Returned false s
  end.

Definition IsCancelled (this : ptr) (s : State) : Outcome bool :=
  match LoadInt32 this s with
  | None => Panicked PanicNilDeref s
  | Some ccstatus => Returned (ccstatus =? 2)%Z s
  end.

(** ** loadVal, result *)

Definition loadVal (this : ptr) (s : State) : option valRef :=
  LoadPointer this s.

Definition result (this : ptr) (s : State) : option (option PromiseResult) :=
  (λ v, r (obj v)) <$> loadVal this s.

(** ** addCallback *)

(** [callback.(func(v interface{}))] and [callback.(func())]. *)
Definition assertFunc1 (callback : iface) : option func1 :=
  match callback with IFunc1 f => Some f | _ => None end.

Definition assertFunc0 (callback : iface) : option func0 :=
  match callback with IFunc0 f => Some f | _ => None end.

(** [newVal := *v] followed by the [switch t] of lines 227-236. *)
Definition appendCallback (v : futureVal) (callback : iface) (t : callbackType)
    : option futureVal :=
  if decide (t = CALLBACK_DONE) then
    f ← assertFunc1 callback;
    Some (mkVal (dones v ++ [f]) (fails v) (always v) (cancels v) (pipes v) (r v))
  else if decide (t = CALLBACK_FAIL) then
    f ← assertFunc1 callback;
    Some (mkVal (dones v) (fails v ++ [f]) (always v) (cancels v) (pipes v) (r v))
  else if decide (t = CALLBACK_ALWAYS) then
    f ← assertFunc1 callback;
    Some (mkVal (dones v) (fails v) (always v ++ [f]) (cancels v) (pipes v) (r v))
  else if decide (t = CALLBACK_CANCEL) then
    f ← assertFunc0 callback;
    Some (mkVal (dones v) (fails v) (always v) (cancels v ++ [f]) (pipes v) (r v))
  else Some v.

(** The [else] branch of the loop, lines 244-253. *)
Definition runCallback (res : PromiseResult) (callback : iface) (t : callbackType)
    (s : State) : Outcome unit :=
  if bool_decide (t = CALLBACK_DONE ∧ Typ res = RESULT_SUCCESS)
     || bool_decide (t = CALLBACK_FAIL ∧ Typ res = RESULT_FAILURE)
     || bool_decide (t = CALLBACK_ALWAYS ∧ Typ res ≠ RESULT_CANCELLED)
  then
    match assertFunc1 callback with
    | None => Panicked PanicTypeAssertion s
    | Some callbackFunc => invoke1 callbackFunc (Result res) s
    end
  else if bool_decide (t = CALLBACK_CANCEL ∧ Typ res = RESULT_CANCELLED) then
    match assertFunc0 callback with
    | None => Panicked PanicTypeAssertion s
    | Some callbackFunc => invoke0 callbackFunc s
    end
  else Returned tt s.

(** The [for] loop of lines 222-255. *)
Fixpoint addCallback_loop (fuel : nat) (sched : Sched) (this : ptr)
    (callback : iface) (t : callbackType) (s : State) : Outcome unit :=
  match fuel with
  | O => OutOfFuel s
  | S fuel' =>
      match loadVal this s with
      | None => Panicked PanicNilDeref s
      | Some v =>
          match r (obj v) with
          | None =>
              match appendCallback (obj v) callback t with
              | None => Panicked PanicTypeAssertion s
              | Some newVal =>
                  let '(a, s1) := alloc s in
                  let '(s2, sched') := interfere sched s1 in
                  match CompareAndSwapPointer this (addr v) (mkRef a newVal) s2 with
                  | None => Panicked PanicNilDeref s2
                  | Some (true, s3) => Returned tt s3
                  | Some (false, s3) =>
                      addCallback_loop fuel' sched' this callback t s3
                  end
              end
          | Some res => runCallback res callback t s
          end
      end
  end.

Definition addCallback (fuel : nat) (sched : Sched) (this : ptr)
    (callback : iface) (t : callbackType) (s : State) : Outcome unit :=
  match callback with
  | INil => Returned tt s
  | _ =>
      if decide (t = CALLBACK_DONE ∨ t = CALLBACK_FAIL ∨ t = CALLBACK_ALWAYS) then
        match assertFunc1 callback with
        | None =>
            Panicked (PanicError "Callback function spec must be func(v interface{})") s
        | Some _ => addCallback_loop fuel sched this callback t s
        end
      else if decide (t = CALLBACK_CANCEL) then
        match assertFunc0 callback with
        | None => Panicked (PanicError "Callback function spec must be func()") s
        | Some _ => addCallback_loop fuel sched this callback t s
        end
      else addCallback_loop fuel sched this callback t s
  end.

(** ** OnSuccess, OnFailure, OnComplete, OnCancel

    The parameter has a func type; passing it on to [addCallback] converts
    it to [interface{}], dynamic type and all. *)

Definition OnSuccess (fuel : nat) (sched : Sched) (this : ptr) (callback : func1)
    (s : State) : Outcome ptr :=
  bind (addCallback fuel sched this (IFunc1 callback) CALLBACK_DONE s)
       (λ _ s', Returned this s').

Definition OnFailure (fuel : nat) (sched : Sched) (this : ptr) (callback : func1)
    (s : State) : Outcome ptr :=
  bind (addCallback fuel sched this (IFunc1 callback) CALLBACK_FAIL s)
       (λ _ s', Returned this s').

Definition OnComplete (fuel : nat) (sched : Sched) (this : ptr) (callback : func1)
    (s : State) : Outcome ptr :=
  bind (addCallback fuel sched this (IFunc1 callback) CALLBACK_ALWAYS s)
       (λ _ s', Returned this s').

Definition OnCancel (fuel : nat) (sched : Sched) (this : ptr) (callback : func0)
    (s : State) : Outcome ptr :=
  bind (addCallback fuel sched this (IFunc0 callback) CALLBACK_CANCEL s)
       (λ _ s', Returned this s').

(** ** Pipe *)

(** Modelled from the spec: [NewPromise], "a freshly created downstream
    Promise" (the constructor is in promise.go): a new pending Future with
    empty callback and pipe lists, no Result, the cancellation flag at
    NotRequested and the completion signal not fired, owned by the returned
    Promise. *)
Definition emptyVal : futureVal := mkVal [] [] [] [] [] None.

Definition NewPromise (s : State) : Promise * State :=
  let a := next s in
  (mkPromise a,
   mkState (<[a := mkFuture (Z.of_nat a) false (mkRef (S a) emptyVal) 0]> (futures s))
           (S (S a)) (world s) (calls s)).

Definition isNil {A} (f : option A) : bool :=
  match f with None => true | Some _ => false end.

(** [callbacks[i]].  Every index expression of [Pipe] is evaluated with
    [i] below [len(callbacks)], so the out-of-range panic cannot occur;
    [index] is nil there. *)
Definition index (callbacks : list pipeFunc) (i : nat) : pipeFunc :=
  default None (callbacks !! i).

(** The [if r != nil] branch of the loop, lines 165-170: the new value of
    the named result [result]. *)
Definition pipeSettled (this : ptr) (callbacks : list pipeFunc)
    (res : PromiseResult) (s : State) : Outcome ptr :=
  if bool_decide (Typ res = RESULT_SUCCESS) && negb (isNil (index callbacks 0))
  then invokePipe (index callbacks 0) (Result res) s
  else if bool_decide (Typ res = RESULT_FAILURE) && (1 <? length callbacks)
          && negb (isNil (index callbacks 1))
  then invokePipe (index callbacks 1) (Result res) s
  else Returned this s.

(** [newPipe] of lines 172-177, once its Promise has been created. *)
Definition makePipe (callbacks : list pipeFunc) (p : Promise) : pipe :=
  mkPipe (index callbacks 0)
         (if 1 <? length callbacks then index callbacks 1 else None)
         p.

Definition appendPipe (v : futureVal) (newPipe : pipe) : futureVal :=
  mkVal (dones v) (fails v) (always v) (cancels v) (pipes v ++ [newPipe]) (r v).

(** The [for] loop of lines 161-187.  [result0] is the current value of the
    named result.  The loop is left by the [break] of line 184 only. *)
Fixpoint Pipe_loop (fuel : nat) (sched : Sched) (this : ptr)
    (callbacks : list pipeFunc) (result0 : ptr) (s : State) : Outcome ptr :=
  match fuel with
  | O => OutOfFuel s
  | S fuel' =>
      match loadVal this s with
      | None => Panicked PanicNilDeref s
      | Some v =>
          match r (obj v) with
          | Some res =>
              bind (pipeSettled this callbacks res s)
                   (λ result1 s', Pipe_loop fuel' sched this callbacks result1 s')
          | None =>
              let '(promise, s1) := NewPromise s in
              let newPipe := makePipe callbacks promise in
              let '(a, s2) := alloc s1 in
              let '(s3, sched') := interfere sched s2 in
              match CompareAndSwapPointer this (addr v)
                      (mkRef a (appendPipe (obj v) newPipe)) s3 with
              | None => Panicked PanicNilDeref s3
              | Some (true, s4) => Returned (PFuture (pipePromise newPipe)) s4
              | Some (false, s4) =>
                  Pipe_loop fuel' sched' this callbacks result0 s4
              end
          end
      end
  end.

(** The guard of lines 153-155. *)
Definition noCallbacks (callbacks : list pipeFunc) : bool :=
  (length callbacks =? 0)
  || ((length callbacks =? 1) && isNil (index callbacks 0))
  || ((1 <? length callbacks) && isNil (index callbacks 0)
      && isNil (index callbacks 1)).

(** The named results start as [(nil, false)]; the early [return] of line
    157 has only assigned [result]. *)
Definition Pipe (fuel : nat) (sched : Sched) (this : ptr)
    (callbacks : list pipeFunc) (s : State) : Outcome (ptr * bool) :=
  if noCallbacks callbacks then Returned (this, false) s
  else
    bind (Pipe_loop fuel sched this callbacks nil_ptr s)
         (λ result1 s', Returned (result1, true) s').

(** ** Get, GetOrTimeout *)

(** Modelled from the spec: [getFutureReturnVal], "(value, nil) for
    Success, (nil, error) for Failure, (nil, CancelledError) for Cancelled"
    (the function is in promise.go). *)
Definition getFutureReturnVal (res : PromiseResult) : Value * Value :=
  match Typ res with
  | RESULT_SUCCESS => (Result res, VNil)
  | RESULT_FAILURE => (VNil, Result res)
  | RESULT_CANCELLED => (VNil, VCancelledError)
  end.

(** [<-this.chEnd]: a receive from a closed channel returns at once and
    leaves the channel closed; on the open channel, on which nothing is ever
    sent, it waits. *)
Definition recvEnd (this : ptr) (s : State) : Outcome unit :=
  match futures s !! this with
  | None => Panicked PanicNilDeref s
  | Some f => if chEnd f then Returned tt s else Blocked s
  end.

(** [getFutureReturnVal(this.result())]. *)
Definition returnVal (this : ptr) (s : State) : Outcome (Value * Value) :=
  match result this s with
  | None | Some None => Panicked PanicNilDeref s
  | Some (Some res) => Returned (getFutureReturnVal res) s
  end.

Definition Get (this : ptr) (s : State) : Outcome (Value * Value) :=
  bind (recvEnd this s) (λ _ s', returnVal this s').

(** Go's [int], 64 bits wide. *)
Definition wrap_int (z : Z) : Z :=
  ((z + 2 ^ 63) mod 2 ^ 64 - 2 ^ 63)%Z.

(** The duration handed to [time.After], in nanoseconds (lines 101-105,
    108). *)
Definition timeoutNanos (mm : Z) : Z :=
  if (mm =? 0)%Z then 10%Z else wrap_int (wrap_int (mm * 1000) * 1000).

Inductive selectCase := TimerFired | EndSignalled.

(** The [select] of line 107, as Go runs it: while neither case can
    proceed it waits; when one can, that one is taken; when both can, the
    runtime takes one of them at random, here [pick]. *)
Definition selectReady (timerReady endReady : bool) (pick : selectCase)
    : option selectCase :=
  match timerReady, endReady with
  | false, false => None
  | true, false => Some TimerFired
  | false, true => Some EndSignalled
  | true, true => Some pick
  end.

(** [GetOrTimeout] at one instant of its wait: [elapsed] is the time, in
    nanoseconds, that the timer of [time.After] has counted since the call,
    [s] the store at that instant and [pick] the choice of the runtime.  The
    timer case can proceed once the duration has elapsed, the receive from
    [chEnd] once the channel is closed; [Blocked] is a call that is still
    waiting. *)
Definition GetOrTimeout (elapsed : Z) (pick : selectCase) (this : ptr) (mm : Z)
    (s : State) : Outcome (Value * Value * bool) :=
  match futures s !! this with
  | None => Panicked PanicNilDeref s
  | Some f =>
      match selectReady (timeoutNanos mm <=? elapsed)%Z (chEnd f) pick with
      | None => Blocked s
      | Some TimerFired => Returned (VNil, VNil, true) s
      | Some EndSignalled =>
          bind (recvEnd this s) (λ _ s1,
          bind (returnVal this s1) (λ re s2, Returned (re.1, re.2, false) s2))
      end
  end.

(** ** The write side *)

Fixpoint invokeAll1 (fs : list func1) (v : Value) (s : State) : Outcome unit :=
  match fs with
  | [] => Returned tt s
  | f :: fs' => bind (invoke1 f v s) (λ _ s', invokeAll1 fs' v s')
  end.

Fixpoint invokeAll0 (fs : list func0) (s : State) : Outcome unit :=
  match fs with
  | [] => Returned tt s
  | f :: fs' => bind (invoke0 f s) (λ _ s', invokeAll0 fs' s')
  end.

Definition logFeed (from : ptr) (downstream : Promise) (s : State) : State :=
  mkState (futures s) (next s) (world s) (calls s ++ [CallFeed from downstream]).

Fixpoint firePipes (ps : list pipe) (res : PromiseResult) (s : State)
    : Outcome unit :=
  match ps with
  | [] => Returned tt s
  | p :: ps' =>
      let '(task, downstream) := getPipe p (bool_decide (Typ res = RESULT_SUCCESS)) in
      if bool_decide (Typ res = RESULT_CANCELLED) || isNil task
      then firePipes ps' res s
      else bind (invokePipe task (Result res) s)
                (λ fu s', firePipes ps' res (logFeed fu downstream s'))
  end.

(** The Future [f] once it carries [res], with its terminal snapshot at
    address [a], and the store in which [this] has been replaced by it. *)
Definition settledFuture (f : Future) (a : nat) (res : PromiseResult) : Future :=
  mkFuture (Id f) true
           (mkRef a (mkVal [] [] [] [] [] (Some res)))
           (if decide (Typ res = RESULT_CANCELLED) then 2 else cancelStatus f).

Definition terminated (this : ptr) (f : Future) (res : PromiseResult) (s : State)
    : State :=
  mkState (<[this := settledFuture f (next s) res]> (futures s))
          (S (next s)) (world s) (calls s).

(** Modelled from the spec: the settle operation behind Resolve, Reject and
    Cancel (section 4.2; promise.go is not among the sources), for a call
    that runs undisturbed.  On a terminal snapshot it does nothing.
    Otherwise it installs a terminal snapshot "carrying the new Result and
    empty callback/pipe lists", fires the completion signal, moves the
    cancellation flag to its third state, Cancelled, when the outcome is
    Cancelled (section 3: "NotRequested → Requested → Cancelled,
    monotonic"), and invokes, in registration order, the callbacks of the
    displaced snapshot that match the outcome, then the matching
    continuation of every pipe.  Feeding a continuation's Future into the
    downstream Promise takes effect when that other Future settles; here it
    is recorded in the log. *)
Definition settle (this : ptr) (res : PromiseResult) (s : State) : Outcome unit :=
  match futures s !! this with
  | None => Panicked PanicNilDeref s
  | Some f =>
      match r (obj (val f)) with
      | Some _ => Returned tt s
      | None =>
          let v := obj (val f) in
          let s2 := terminated this f res s in
          match Typ res with
          | RESULT_SUCCESS =>
              bind (invokeAll1 (dones v) (Result res) s2) (λ _ s3,
              bind (invokeAll1 (always v) (Result res) s3) (λ _ s4,
              firePipes (pipes v) res s4))
          | RESULT_FAILURE =>
              bind (invokeAll1 (fails v) (Result res) s2) (λ _ s3,
              bind (invokeAll1 (always v) (Result res) s3) (λ _ s4,
              firePipes (pipes v) res s4))
          | RESULT_CANCELLED =>
              bind (invokeAll0 (cancels v) s2) (λ _ s3,
              firePipes (pipes v) res s3)
          end
      end
  end.

(** ** Histories *)

(** The calls a program can make on the store, each running undisturbed. *)
Inductive Op :=
| OpNewPromise
| OpRequestCancel (this : ptr)
| OpOnSuccess (fuel : nat) (this : ptr) (callback : func1)
| OpOnFailure (fuel : nat) (this : ptr) (callback : func1)
| OpOnComplete (fuel : nat) (this : ptr) (callback : func1)
| OpOnCancel (fuel : nat) (this : ptr) (callback : func0)
| OpPipe (fuel : nat) (this : ptr) (callbacks : list pipeFunc)
| OpSettle (this : ptr) (res : PromiseResult).

Definition exec (s : State) (op : Op) : State :=
  match op with
  | OpNewPromise => (NewPromise s).2
  | OpRequestCancel this => state_of (RequestCancel [] this s)
  | OpOnSuccess fuel this cb => state_of (OnSuccess fuel [] this cb s)
  | OpOnFailure fuel this cb => state_of (OnFailure fuel [] this cb s)
  | OpOnComplete fuel this cb => state_of (OnComplete fuel [] this cb s)
  | OpOnCancel fuel this cb => state_of (OnCancel fuel [] this cb s)
  | OpPipe fuel this cbs => state_of (Pipe fuel [] this cbs s)
  | OpSettle this res => state_of (settle this res s)
  end.

Definition initState (w : World) : State := mkState ∅ 1 w [].

Definition run (ops : list Op) (s : State) : State := foldl exec s ops.

(** The snapshot of a Future, and whether it is pending or settled. *)
Definition snapshot (this : ptr) (s : State) : option futureVal :=
  (λ f, obj (val f)) <$> futures s !! this.

Definition pending (this : ptr) (s : State) : Prop :=
  ∃ f, futures s !! this = Some f ∧ r (obj (val f)) = None.

Definition settledWith (this : ptr) (res : PromiseResult) (s : State) : Prop :=
  ∃ f, futures s !! this = Some f ∧ r (obj (val f)) = Some res.

(** The store after the callback [g] has been called once on [x]: only the
    world of the callbacks and the log differ. *)
Definition called1 (g : Value → World → World) (x : Value) (s : State) : State :=
  mkState (futures s) (next s) (g x (world s)) (calls s ++ [CallFunc1 g x]).

Definition called0 (g : World → World) (s : State) : State :=
  mkState (futures s) (next s) (g (world s)) (calls s ++ [CallFunc0 g]).

(** The store after a compare-and-swap has installed a copy [newVal] of the
    snapshot of [this], taken at the next free address. *)
Definition installed (this : ptr) (f : Future) (newVal : futureVal) (s : State) : State :=
  mkState (<[this := set_val (mkRef (next s) newVal) f]> (futures s))
          (S (next s)) (world s) (calls s).

(** The outcome recorded in the snapshot of [f] is Cancelled. *)
Definition cancelledOutcome (f : Future) : Prop :=
  ∃ res, r (obj (val f)) = Some res ∧ Typ res = RESULT_CANCELLED.

(** The cancellation flag of every Future is at Cancelled exactly when its
    outcome is. *)
Definition flagAgrees (s : State) : Prop :=
  map_Forall (λ _ f, cancelStatus f = 2%Z ↔ cancelledOutcome f) (futures s).

(** Every address in use is below the next one the allocator hands out,
    and nothing lives at the nil address. *)
Definition wfStore (s : State) : Prop :=
  0 < next s
  ∧ futures s !! nil_ptr = None
  ∧ map_Forall (λ p f, p < next s ∧ addr (val f) < next s) (futures s).

(** The store after [RequestCancel] has moved the flag of [this]. *)
Definition requested (this : ptr) (f : Future) (s : State) : State :=
  set_futures (<[this := set_cancelStatus 1 f]> (futures s)) s.

End Model.

#[global] Arguments func1 : clear implicits.
#[global] Arguments func0 : clear implicits.
#[global] Arguments pipeFunc : clear implicits.
#[global] Arguments iface : clear implicits.
#[global] Arguments Call : clear implicits.
#[global] Arguments pipe : clear implicits.
#[global] Arguments futureVal : clear implicits.
#[global] Arguments valRef : clear implicits.
#[global] Arguments Future : clear implicits.
#[global] Arguments State : clear implicits.
#[global] Arguments Outcome : clear implicits.
#[global] Arguments Sched : clear implicits.
#[global] Arguments Op : clear implicits.
#[global] Arguments INil {World}.

(** ** Sample stores

    Callbacks on a counter: [bump] adds its payload, [tick] adds one, and
    the continuation [chain] answers with the Future at address [7]. *)

Definition bump (v : Value) (w : Z) : Z :=
  match v with VInt n => (w + n)%Z | _ => w end.

Definition tick (w : Z) : Z := (w + 1)%Z.

Definition chain (v : Value) (w : Z) : Z * ptr := (bump v w, 7).

(** One pending Future, at address [1]. *)
Definition pendingStore : State Z := (NewPromise (initState 0%Z)).2.

(** The same Future resolved with 5, rejected, and cancelled. *)
Definition resolvedStore : State Z :=
  state_of (settle 1 (mkResult (VInt 5) RESULT_SUCCESS) pendingStore).

Definition rejectedStore : State Z :=
  state_of (settle 1 (mkResult (VError "boom") RESULT_FAILURE) pendingStore).

Definition cancelledStore : State Z :=
  state_of (settle 1 (mkResult VNil RESULT_CANCELLED) pendingStore).

(** The Future of [pendingStore] and of [resolvedStore]. *)
Definition pendingFuture : Future Z := mkFuture 1 false (mkRef 2 emptyVal) 0.

Definition resolved5 : PromiseResult := mkResult (VInt 5) RESULT_SUCCESS.

Definition resolvedFuture : Future Z :=
  mkFuture 1 true (mkRef 3 (mkVal [] [] [] [] [] (Some resolved5))) 0.

(** The Future of [rejectedStore], and what other goroutines do when they
    resolve the Future at address [1] with 5. *)
Definition rejectedBoom : PromiseResult := mkResult (VError "boom") RESULT_FAILURE.

Definition rejectedFuture : Future Z :=
  mkFuture 1 true (mkRef 3 (mkVal [] [] [] [] [] (Some rejectedBoom))) 0.

Definition resolveNow (s : State Z) : State Z := state_of (settle 1 resolved5 s).

(** A short history of calls of [future.go] on the pending Future. *)
Definition sampleCalls : list (Op Z) :=
  [OpOnSuccess 1 1 (Some bump); OpRequestCancel 1; OpPipe 1 1 [Some chain];
   OpOnCancel 1 1 (Some tick)].

(** ** Relations between snapshots and between stores *)

Section Relations.

Context {World : Type}.

(** [v'] is [v] with callbacks and pipes added at the end of its lists, and
    the same Result. *)
Definition grows (v v' : futureVal World) : Prop :=
  dones v `prefix_of` dones v'
  ∧ fails v `prefix_of` fails v'
  ∧ always v `prefix_of` always v'
  ∧ cancels v `prefix_of` cancels v'
  ∧ pipes v `prefix_of` pipes v'
  ∧ r v' = r v.

(** What a call of [future.go] may do to a Future [f]: add to the lists of
    its snapshot, and move its flag from NotRequested to Requested. *)
Definition keeps (f f' : Future World) : Prop :=
  Id f' = Id f
  ∧ chEnd f' = chEnd f
  ∧ grows (obj (val f)) (obj (val f'))
  ∧ (cancelStatus f' = cancelStatus f
     ∨ (cancelStatus f = 0%Z ∧ cancelStatus f' = 1%Z)).

(** Every Future of [s] is still in [s'], kept. *)
Definition preserves (s s' : State World) : Prop :=
  next s ≤ next s'
  ∧ ∀ p f, futures s !! p = Some f →
           ∃ f', futures s' !! p = Some f' ∧ keeps f f'.

(** The calls whose code is in [future.go]. *)
Definition fromFuture (op : Op World) : bool :=
  match op with
  | OpNewPromise | OpSettle _ _ => false
  | _ => true
  end.

(** The store after an undisturbed [Pipe] on the pending Future [f] at
    [this]: a new Promise at the next address, and on [this] a copy of the
    snapshot with one more pipe. *)
Definition piped (this : ptr) (f : Future World) (callbacks : list (pipeFunc World))
    (s : State World) : State World :=
  mkState
    (<[this := set_val (mkRef (S (S (next s)))
                          (appendPipe (obj (val f))
                             (makePipe callbacks (mkPromise (next s))))) f]>
       (<[next s := mkFuture (Z.of_nat (next s)) false
                      (mkRef (S (next s)) emptyVal) 0]> (futures s)))
    (S (S (S (next s)))) (world s) (calls s).

(** The flag after [n] calls of [RequestCancel]. *)
Definition afterRequests (n : nat) (c : Z) : Z :=
  if (c =? 0)%Z then (match n with O => 0 | S _ => 1 end)%Z else c.

End Relations.

(** * Properties *)

Section Properties.

Context {World : Type}.

Implicit Types (s : State World) (f : Future World) (v : futureVal World).
Implicit Types (this : ptr) (fuel : nat) (sched : Sched World).
Implicit Types (res : PromiseResult).

Lemma loadVal_Some this s f :
  futures s !! this = Some f → loadVal this s = Some (val f).
Proof. intros H. unfold loadVal, LoadPointer. by rewrite H. Qed.

(** One attempt suffices when nothing interferes. *)
Lemma addCallback_loop_pending fuel this callback t s f newVal :
  futures s !! this = Some f →
  r (obj (val f)) = None →
  appendCallback (obj (val f)) callback t = Some newVal →
  addCallback_loop (S fuel) [] this callback t s
  = Returned tt (installed this f newVal s).
Proof.
  intros Hf Hr Ha. simpl. rewrite (loadVal_Some _ _ _ Hf), Hr, Ha.
  unfold CompareAndSwapPointer. simpl. rewrite Hf.
  by rewrite decide_True.
Qed.

Lemma addCallback_loop_settled fuel sched this callback t s f res :
  futures s !! this = Some f →
  r (obj (val f)) = Some res →
  addCallback_loop (S fuel) sched this callback t s
  = runCallback res callback t s.
Proof.
  intros Hf Hr. simpl. by rewrite (loadVal_Some _ _ _ Hf), Hr.
Qed.

Lemma runCallback_done g res s :
  Typ res = RESULT_SUCCESS →
  runCallback res (IFunc1 (Some g)) CALLBACK_DONE s
  = Returned tt (called1 g (Result res) s).
Proof. intros H. unfold runCallback. rewrite H. done. Qed.

Lemma runCallback_fail g res s :
  Typ res = RESULT_FAILURE →
  runCallback res (IFunc1 (Some g)) CALLBACK_FAIL s
  = Returned tt (called1 g (Result res) s).
Proof. intros H. unfold runCallback. rewrite H. done. Qed.

Lemma runCallback_always g res s :
  Typ res ≠ RESULT_CANCELLED →
  runCallback res (IFunc1 (Some g)) CALLBACK_ALWAYS s
  = Returned tt (called1 g (Result res) s).
Proof. intros H. unfold runCallback. by destruct (Typ res). Qed.

Lemma runCallback_cancel g res s :
  Typ res = RESULT_CANCELLED →
  runCallback res (IFunc0 (Some g)) CALLBACK_CANCEL s
  = Returned tt (called0 g s).
Proof. intros H. unfold runCallback. rewrite H. done. Qed.

(** C1 (as amended).  [Pipe] called with no callbacks, with a single nil
    callback or with two nil callbacks returns the receiver itself together
    with [ok = false], whatever the receiver and the store, and leaves the
    store, hence the snapshot, as it was. *)
Theorem Pipe_without_callbacks fuel sched this s :
  Pipe fuel sched this [] s = Returned (this, false) s
  ∧ Pipe fuel sched this [None] s = Returned (this, false) s
  ∧ Pipe fuel sched this [None; None] s = Returned (this, false) s.
Proof. done. Qed.

(** C10.  A callback that is not nil and whose dynamic type is not the one
    of the registration kind makes [addCallback] panic with the error of its
    kind: for a Done, Fail or Always registration when it is not a
    [func(v interface{})], for a Cancel registration when it is not a
    [func()].  The panic comes with the store untouched and whatever the
    store and the fuel are: no snapshot has been read. *)
Theorem addCallback_wrong_type_panics fuel sched this (callback : iface World) t s :
  callback ≠ INil →
  ((t = CALLBACK_DONE ∨ t = CALLBACK_FAIL ∨ t = CALLBACK_ALWAYS) →
   (∀ g, callback ≠ IFunc1 g) →
   addCallback fuel sched this callback t s
   = Panicked (PanicError "Callback function spec must be func(v interface{})") s)
  ∧ (t = CALLBACK_CANCEL →
     (∀ g, callback ≠ IFunc0 g) →
     addCallback fuel sched this callback t s
     = Panicked (PanicError "Callback function spec must be func()") s).
Proof.
  intros Hnil. split.
  - intros Ht Hty. unfold addCallback.
    destruct callback as [| g | g | ty]; try done.
    + by destruct (Hty g).
    + by rewrite decide_True.
    + by rewrite decide_True.
  - intros -> Hty. unfold addCallback.
    destruct callback as [| g | g | ty]; try done.
    by destruct (Hty g).
Qed.

(** A registration that finds the Future settled: one turn of the loop,
    through its [else] branch. *)
Ltac on_settled Hf Hr :=
  unfold OnSuccess, OnFailure, OnComplete, OnCancel, addCallback;
  simpl decide;
  rewrite (addCallback_loop_settled _ _ _ _ _ _ _ _ Hf Hr).

(** C3.  On a Future that is settled with [res], registering a callback that
    is not nil and whose kind matches the outcome returns the receiver after
    a single call of the callback, on the payload of [res] (on no argument
    for [OnCancel]): the store at the return is the one the call found, but
    for the effect of that one invocation on the world of the callbacks and
    its entry at the end of the log.  The snapshot of every Future is as
    before. *)
Theorem registration_on_settled_calls_once fuel sched this s f res :
  futures s !! this = Some f →
  r (obj (val f)) = Some res →
  (∀ g, Typ res = RESULT_SUCCESS →
        OnSuccess (S fuel) sched this (Some g) s
        = Returned this (called1 g (Result res) s))
  ∧ (∀ g, Typ res = RESULT_FAILURE →
          OnFailure (S fuel) sched this (Some g) s
          = Returned this (called1 g (Result res) s))
  ∧ (∀ g, Typ res = RESULT_SUCCESS ∨ Typ res = RESULT_FAILURE →
          OnComplete (S fuel) sched this (Some g) s
          = Returned this (called1 g (Result res) s))
  ∧ (∀ g, Typ res = RESULT_CANCELLED →
          OnCancel (S fuel) sched this (Some g) s
          = Returned this (called0 g s))
  ∧ (∀ g x p, snapshot p (called1 g x s) = snapshot p s)
  ∧ (∀ g p, snapshot p (called0 g s) = snapshot p s).
Proof.
  intros Hf Hr. repeat split; intros g Ht; on_settled Hf Hr.
  - by rewrite runCallback_done.
  - by rewrite runCallback_fail.
  - rewrite runCallback_always; [done|]. by destruct Ht as [-> | ->].
  - by rewrite runCallback_cancel.
Qed.

(** *** Registration on a pending Future

    The four lemmas hold for every value of the func parameter, the nil
    func included: converted to [interface{}] it is never the nil
    interface, so the test of line 207 lets it through. *)

Ltac on_pending fuel this callback t s f Hf Hr :=
  unfold OnSuccess, OnFailure, OnComplete, OnCancel, addCallback;
  simpl decide; cbv iota beta; simpl assertFunc1; simpl assertFunc0; cbv iota;
  rewrite (addCallback_loop_pending fuel this callback t s f _ Hf Hr eq_refl);
  simpl; by rewrite Hr.

Lemma OnSuccess_pending fuel this (callback : func1 World) s f :
  futures s !! this = Some f →
  r (obj (val f)) = None →
  OnSuccess (S fuel) [] this callback s
  = Returned this
      (installed this f
         (mkVal (dones (obj (val f)) ++ [callback]) (fails (obj (val f)))
                (always (obj (val f))) (cancels (obj (val f)))
                (pipes (obj (val f))) None) s).
Proof.
  intros Hf Hr. on_pending fuel this (IFunc1 callback) CALLBACK_DONE s f Hf Hr.
Qed.

Lemma OnFailure_pending fuel this (callback : func1 World) s f :
  futures s !! this = Some f →
  r (obj (val f)) = None →
  OnFailure (S fuel) [] this callback s
  = Returned this
      (installed this f
         (mkVal (dones (obj (val f))) (fails (obj (val f)) ++ [callback])
                (always (obj (val f))) (cancels (obj (val f)))
                (pipes (obj (val f))) None) s).
Proof.
  intros Hf Hr. on_pending fuel this (IFunc1 callback) CALLBACK_FAIL s f Hf Hr.
Qed.

Lemma OnComplete_pending fuel this (callback : func1 World) s f :
  futures s !! this = Some f →
  r (obj (val f)) = None →
  OnComplete (S fuel) [] this callback s
  = Returned this
      (installed this f
         (mkVal (dones (obj (val f))) (fails (obj (val f)))
                (always (obj (val f)) ++ [callback]) (cancels (obj (val f)))
                (pipes (obj (val f))) None) s).
Proof.
  intros Hf Hr. on_pending fuel this (IFunc1 callback) CALLBACK_ALWAYS s f Hf Hr.
Qed.

Lemma OnCancel_pending fuel this (callback : func0 World) s f :
  futures s !! this = Some f →
  r (obj (val f)) = None →
  OnCancel (S fuel) [] this callback s
  = Returned this
      (installed this f
         (mkVal (dones (obj (val f))) (fails (obj (val f)))
                (always (obj (val f))) (cancels (obj (val f)) ++ [callback])
                (pipes (obj (val f))) None) s).
Proof.
  intros Hf Hr. on_pending fuel this (IFunc0 callback) CALLBACK_CANCEL s f Hf Hr.
Qed.

Lemma installed_snapshot this f (newVal : futureVal World) s :
  snapshot this (installed this f newVal s) = Some newVal.
Proof. unfold snapshot, installed. simpl. by rewrite lookup_insert_eq. Qed.

Lemma installed_snapshot_ne this p f (newVal : futureVal World) s :
  p ≠ this → snapshot p (installed this f newVal s) = snapshot p s.
Proof.
  intros Hne. unfold snapshot, installed. simpl. by rewrite lookup_insert_ne.
Qed.

(** C4.  On a Future whose snapshot [v] is pending, registering a callback
    that is not nil, in a call that runs undisturbed, returns the receiver
    with a new snapshot installed that is [v] with the callback added at the
    end of the list of its kind:
    [dones] for [OnSuccess], [fails] for [OnFailure], [always] for
    [OnComplete], [cancels] for [OnCancel].  The three other callback lists
    and the pipes are those of [v], the Result is still absent, the
    snapshots of the other Futures are untouched, and nothing has been
    called: the world of the callbacks and the log are as before. *)
Theorem registration_on_pending_appends fuel this s f :
  futures s !! this = Some f →
  r (obj (val f)) = None →
  let v := obj (val f) in
  (∀ g, ∃ s', OnSuccess (S fuel) [] this (Some g) s = Returned this s'
      ∧ snapshot this s'
        = Some (mkVal (dones v ++ [Some g]) (fails v) (always v) (cancels v)
                      (pipes v) None)
      ∧ (∀ p, p ≠ this → snapshot p s' = snapshot p s)
      ∧ world s' = world s ∧ calls s' = calls s)
  ∧ (∀ g, ∃ s', OnFailure (S fuel) [] this (Some g) s = Returned this s'
      ∧ snapshot this s'
        = Some (mkVal (dones v) (fails v ++ [Some g]) (always v) (cancels v)
                      (pipes v) None)
      ∧ (∀ p, p ≠ this → snapshot p s' = snapshot p s)
      ∧ world s' = world s ∧ calls s' = calls s)
  ∧ (∀ g, ∃ s', OnComplete (S fuel) [] this (Some g) s = Returned this s'
      ∧ snapshot this s'
        = Some (mkVal (dones v) (fails v) (always v ++ [Some g]) (cancels v)
                      (pipes v) None)
      ∧ (∀ p, p ≠ this → snapshot p s' = snapshot p s)
      ∧ world s' = world s ∧ calls s' = calls s)
  ∧ (∀ g, ∃ s', OnCancel (S fuel) [] this (Some g) s = Returned this s'
      ∧ snapshot this s'
        = Some (mkVal (dones v) (fails v) (always v) (cancels v ++ [Some g])
                      (pipes v) None)
      ∧ (∀ p, p ≠ this → snapshot p s' = snapshot p s)
      ∧ world s' = world s ∧ calls s' = calls s).
Proof.
  intros Hf Hr v.
  repeat apply conj; intros g; eexists;
    [ rewrite (OnSuccess_pending _ _ _ _ _ Hf Hr)
    | rewrite (OnFailure_pending _ _ _ _ _ Hf Hr)
    | rewrite (OnComplete_pending _ _ _ _ _ Hf Hr)
    | rewrite (OnCancel_pending _ _ _ _ _ Hf Hr) ];
    (split; [done|]; split; [apply installed_snapshot|];
     split; [|done]; intros p Hp; by apply installed_snapshot_ne).
Qed.

(** *** Pipe *)

Lemma index_0_length (callbacks : list (pipeFunc World)) :
  index callbacks 0 ≠ None → (length callbacks =? 0) = false.
Proof. by destruct callbacks. Qed.

Lemma index_1_length (callbacks : list (pipeFunc World)) :
  index callbacks 1 ≠ None → (1 <? length callbacks) = true.
Proof. by destruct callbacks as [|c0 [|c1 l]]. Qed.

Lemma noCallbacks_false (callbacks : list (pipeFunc World)) :
  index callbacks 0 ≠ None ∨ index callbacks 1 ≠ None →
  noCallbacks callbacks = false.
Proof.
  unfold noCallbacks.
  destruct callbacks as [|[g0|] [|[g1|] l]]; simpl; intros [H|H]; done.
Qed.

Lemma makePipe_fields (callbacks : list (pipeFunc World)) p :
  makePipe callbacks p = mkPipe (index callbacks 0) (index callbacks 1) p.
Proof. by destruct callbacks as [|c0 [|c1 l]]. Qed.

(** C6.  On a Future whose snapshot [v] is pending, [Pipe] with a first or a
    second callback that is not nil, in a call that runs undisturbed,
    returns, with [ok = true], the Future of a Promise created by the call:
    a Future that did not exist before, is pending and has nothing
    registered.  The snapshot installed on the
    receiver is [v] with one more record at the end of [pipes], holding the
    first callback as success continuation, the second one (nil when a
    single callback was given) as failure continuation, and that Promise.
    The callback lists are those of [v], the Result is still absent, the
    other Futures are untouched and nothing has been called. *)
Theorem Pipe_on_pending_appends fuel this (callbacks : list (pipeFunc World)) s f :
  futures s !! this = Some f →
  r (obj (val f)) = None →
  futures s !! next s = None →
  index callbacks 0 ≠ None ∨ index callbacks 1 ≠ None →
  let v := obj (val f) in
  let downstream := mkPromise (next s) in
  ∃ s', Pipe (S fuel) [] this callbacks s = Returned (PFuture downstream, true) s'
    ∧ snapshot this s'
      = Some (mkVal (dones v) (fails v) (always v) (cancels v)
                (pipes v ++ [mkPipe (index callbacks 0) (index callbacks 1) downstream])
                None)
    ∧ snapshot (PFuture downstream) s' = Some emptyVal
    ∧ (∀ p, p ≠ this → p ≠ PFuture downstream → snapshot p s' = snapshot p s)
    ∧ world s' = world s ∧ calls s' = calls s.
Proof.
  intros Hf Hr Hfresh Hcb v downstream.
  assert (Hne : next s ≠ this).
  { intros E. rewrite E, Hf in Hfresh. done. }
  unfold Pipe. rewrite (noCallbacks_false _ Hcb). simpl.
  rewrite (loadVal_Some _ _ _ Hf), Hr.
  unfold CompareAndSwapPointer. simpl.
  rewrite lookup_insert_ne by done. rewrite Hf.
  rewrite decide_True by done. simpl.
  eexists. split; [reflexivity|].
  unfold snapshot. simpl. repeat split.
  - rewrite lookup_insert_eq. simpl. unfold appendPipe.
    by rewrite makePipe_fields, Hr.
  - rewrite lookup_insert_ne by done. by rewrite lookup_insert_eq.
  - intros p Hp1 Hp2. by rewrite !lookup_insert_ne.
Qed.

Lemma pipeSettled_returns this (callbacks : list (pipeFunc World)) res s :
  ∃ result1 s', pipeSettled this callbacks res s = Returned result1 s'
    ∧ futures s' = futures s.
Proof.
  unfold pipeSettled.
  destruct (bool_decide (Typ res = RESULT_SUCCESS) && negb (isNil (index callbacks 0)))
    eqn:E1.
  { apply andb_prop in E1 as [_ E1].
    destruct (index callbacks 0); [|done]. simpl. by eexists _, _. }
  destruct (bool_decide (Typ res = RESULT_FAILURE) && (1 <? length callbacks)
            && negb (isNil (index callbacks 1))) eqn:E2.
  { apply andb_prop in E2 as [_ E2].
    destruct (index callbacks 1); [|done]. simpl. by eexists _, _. }
  by eexists _, _.
Qed.

(** Once the Future is settled no iteration leaves the loop. *)
Lemma Pipe_loop_settled fuel sched this (callbacks : list (pipeFunc World))
    result0 s res :
  settledWith this res s →
  ∃ s', Pipe_loop fuel sched this callbacks result0 s = OutOfFuel s'
    ∧ futures s' = futures s.
Proof.
  revert result0 s. induction fuel as [|fuel IH]; intros result0 s Hs.
  { by eexists. }
  destruct Hs as (f & Hf & Hr). simpl.
  rewrite (loadVal_Some _ _ _ Hf), Hr.
  destruct (pipeSettled_returns this callbacks res s) as (r1 & s1 & -> & Hs1).
  simpl.
  destruct (IH r1 s1) as (s' & -> & Hs').
  { exists f. by rewrite Hs1. }
  exists s'. split; [done|]. by rewrite Hs'.
Qed.

(** On a resolved Future every iteration calls the success continuation
    again. *)
Lemma Pipe_loop_resolved_calls fuel sched this (callbacks : list (pipeFunc World))
    result0 s res g :
  settledWith this res s →
  Typ res = RESULT_SUCCESS →
  index callbacks 0 = Some g →
  ∃ s', Pipe_loop fuel sched this callbacks result0 s = OutOfFuel s'
    ∧ calls s' = calls s ++ replicate fuel (CallPipe g (Result res)).
Proof.
  intros Hs Ht Hg. revert result0 s Hs.
  induction fuel as [|fuel IH]; intros result0 s Hs.
  { eexists. split; [done|]. simpl. by rewrite app_nil_r. }
  destruct Hs as (f & Hf & Hr). simpl Pipe_loop.
  rewrite (loadVal_Some _ _ _ Hf), Hr.
  unfold pipeSettled. rewrite Ht, Hg. simpl.
  edestruct IH as (s' & -> & Hs'); [by exists f|].
  exists s'. split; [done|]. rewrite Hs'. simpl. by rewrite <- app_assoc.
Qed.

(** C5 (what the code does).  On a settled Future [Pipe], called with a
    first or a second callback that is not nil, does not return: whatever
    the fuel, the loop of lines 161-187 is still running when it is spent,
    with every Future as it was.  The branch taken on a settled Future has
    no [break]. *)
Theorem Pipe_on_settled_never_returns fuel sched this
    (callbacks : list (pipeFunc World)) s res :
  settledWith this res s →
  index callbacks 0 ≠ None ∨ index callbacks 1 ≠ None →
  ∃ s', Pipe fuel sched this callbacks s = OutOfFuel s'
    ∧ futures s' = futures s.
Proof.
  intros Hs Hcb. unfold Pipe. rewrite (noCallbacks_false _ Hcb).
  destruct (Pipe_loop_settled fuel sched this callbacks nil_ptr s res Hs)
    as (s' & -> & Hs').
  by exists s'.
Qed.

(** *** RequestCancel *)

Lemma RequestCancel_first this s f :
  futures s !! this = Some f →
  cancelStatus f = 0%Z →
  RequestCancel [] this s = Returned true (requested this f s).
Proof.
  intros Hf Hc. unfold RequestCancel, LoadInt32. rewrite Hf. simpl.
  rewrite Hc. simpl. unfold CompareAndSwapInt32. rewrite Hf.
  by rewrite decide_True.
Qed.

Lemma RequestCancel_again sched this s f :
  futures s !! this = Some f →
  cancelStatus f ≠ 0%Z →
  RequestCancel sched this s = Returned false s.
Proof.
  intros Hf Hc. unfold RequestCancel, LoadInt32. rewrite Hf. simpl.
  by apply Z.eqb_neq in Hc as ->.
Qed.

(** Calls that run one after the other.  On a Future whose flag is
    NotRequested (0), [RequestCancel], running undisturbed, returns true
    and leaves the flag at Requested (1), nothing else being changed.  On a
    Future whose flag is not NotRequested it returns false and changes
    nothing.  Two calls in a row return true, then false. *)
Theorem RequestCancel_transition this s f :
  futures s !! this = Some f →
  (cancelStatus f = 0%Z →
   RequestCancel [] this s = Returned true (requested this f s)
   ∧ LoadInt32 this (requested this f s) = Some 1%Z
   ∧ RequestCancel [] this (requested this f s)
     = Returned false (requested this f s))
  ∧ (cancelStatus f ≠ 0%Z →
     ∀ sched, RequestCancel sched this s = Returned false s).
Proof.
  intros Hf. split.
  - intros Hc. split; [by apply RequestCancel_first|].
    assert (Hf' : futures (requested this f s) !! this
                  = Some (set_cancelStatus 1 f)).
    { unfold requested. simpl. by rewrite lookup_insert_eq. }
    split.
    + unfold LoadInt32. by rewrite Hf'.
    + by apply (RequestCancel_again _ _ _ _ Hf').
  - intros Hc sched. by apply (RequestCancel_again _ _ _ f).
Qed.

(** C7 (what the code does).  The value returned is decided by the load of
    line 68, not by the compare-and-swap of line 70, whose result is
    dropped.  On a Future whose flag is NotRequested, let a second call run
    between the load of a first call and its compare-and-swap: the second
    call returns true and has moved the flag to Requested; the
    compare-and-swap of the first call then fails, the first call has made
    no transition, and it returns true all the same. *)
Theorem RequestCancel_overtaken this s f :
  futures s !! this = Some f →
  cancelStatus f = 0%Z →
  let other := λ s0, state_of (RequestCancel [] this s0) in
  RequestCancel [] this s = Returned true (other s)
  ∧ LoadInt32 this (other s) = Some 1%Z
  ∧ CompareAndSwapInt32 this 0 1 (other s) = Some (false, other s)
  ∧ RequestCancel [other] this s = Returned true (other s).
Proof.
  intros Hf Hc other. subst other. cbv beta.
  rewrite (RequestCancel_first _ _ _ Hf Hc). cbn [state_of].
  assert (Hf' : futures (requested this f s) !! this
                = Some (set_cancelStatus 1 f)).
  { unfold requested. simpl. by rewrite lookup_insert_eq. }
  assert (E : CompareAndSwapInt32 this 0 1 (requested this f s)
              = Some (false, requested this f s)).
  { unfold CompareAndSwapInt32. rewrite Hf'. by rewrite decide_False. }
  split; [done|]. split; [unfold LoadInt32; by rewrite Hf'|]. split; [done|].
  unfold RequestCancel at 1. unfold LoadInt32. rewrite Hf. simpl.
  rewrite Hc. simpl.
  rewrite (RequestCancel_first _ _ _ Hf Hc). simpl. by rewrite E.
Qed.

(** *** Invariants of histories

    A property of the store holds after every history once it holds of the
    empty store and survives the few ways in which a call changes the
    store. *)

Section Invariant.

Variable P : State World → Prop.

Hypothesis P_frame :
  ∀ s s', futures s' = futures s → next s' = next s → P s → P s'.
Hypothesis P_alloc : ∀ s, P s → P (alloc s).2.
Hypothesis P_new : ∀ s, P s → P (NewPromise s).2.
Hypothesis P_install :
  ∀ s this f newVal,
    P s → futures s !! this = Some f → r (obj (val f)) = None →
    r newVal = None → P (installed this f newVal s).
Hypothesis P_request :
  ∀ s this f,
    P s → futures s !! this = Some f → cancelStatus f = 0%Z →
    P (requested this f s).
Hypothesis P_settle :
  ∀ s this f res,
    P s → futures s !! this = Some f → r (obj (val f)) = None →
    P (terminated this f res s).

Lemma inv_bind {A B} (m : Outcome World A) (k : A → State World → Outcome World B) :
  P (state_of m) →
  (∀ a s, P s → P (state_of (k a s))) →
  P (state_of (bind m k)).
Proof using Type. intros Hm Hk. destruct m; cbn in *; auto. Qed.

Lemma inv_invoke1 g x s : P s → P (state_of (invoke1 g x s)).
Proof using P_frame. destruct g; [|done]. by apply P_frame. Qed.

Lemma inv_invoke0 g s : P s → P (state_of (invoke0 g s)).
Proof using P_frame. destruct g; [|done]. by apply P_frame. Qed.

Lemma inv_invokePipe g x s : P s → P (state_of (invokePipe g x s)).
Proof using P_frame. destruct g; [|done]. by apply P_frame. Qed.

Lemma inv_invokeAll1 gs x s : P s → P (state_of (invokeAll1 gs x s)).
Proof using P_frame.
  revert s. induction gs as [|g gs IH]; intros s Hs; [done|].
  cbn [invokeAll1]. apply inv_bind; [by apply inv_invoke1|].
  intros _ s'. apply IH.
Qed.

Lemma inv_invokeAll0 gs s : P s → P (state_of (invokeAll0 gs s)).
Proof using P_frame.
  revert s. induction gs as [|g gs IH]; intros s Hs; [done|].
  cbn [invokeAll0]. apply inv_bind; [by apply inv_invoke0|].
  intros _ s'. apply IH.
Qed.

Lemma inv_firePipes ps res s : P s → P (state_of (firePipes ps res s)).
Proof using P_frame.
  revert s. induction ps as [|p ps IH]; intros s Hs; [done|].
  cbn [firePipes]. destruct (getPipe p _) as [task downstream].
  destruct (_ || _); [by apply IH|].
  apply inv_bind; [by apply inv_invokePipe|].
  intros fu s' Hs'. apply IH. by apply (P_frame s').
Qed.

Lemma inv_runCallback res callback t s :
  P s → P (state_of (runCallback res callback t s)).
Proof using P_frame.
  intros Hs. unfold runCallback.
  destruct (_ || _).
  - destruct (assertFunc1 callback); [by apply inv_invoke1|done].
  - destruct (bool_decide _); [|done].
    destruct (assertFunc0 callback); [by apply inv_invoke0|done].
Qed.

Lemma appendCallback_r v callback t newVal :
  appendCallback v callback t = Some newVal → r newVal = r v.
Proof using Type.
  unfold appendCallback. intros H.
  repeat case_decide; simplify_option_eq; done.
Qed.

Lemma inv_addCallback_loop fuel this callback t s :
  P s → P (state_of (addCallback_loop fuel [] this callback t s)).
Proof using P_frame P_install.
  revert s. induction fuel as [|fuel IH]; intros s Hs; [done|].
  cbn [addCallback_loop]. unfold loadVal, LoadPointer.
  destruct (futures s !! this) as [f|] eqn:Hf; [|done].
  cbn [fmap option_fmap option_map].
  destruct (r (obj (val f))) as [res|] eqn:Hr.
  { by apply inv_runCallback. }
  destruct (appendCallback _ _ _) as [newVal|] eqn:Ha; [|done].
  cbn [alloc interfere]. unfold CompareAndSwapPointer. cbn [futures].
  rewrite Hf. rewrite decide_True by done. cbn [state_of].
  apply (P_install s this f newVal Hs Hf Hr).
  by rewrite (appendCallback_r _ _ _ _ Ha).
Qed.

Lemma inv_addCallback fuel this callback t s :
  P s → P (state_of (addCallback fuel [] this callback t s)).
Proof using P_frame P_install.
  intros Hs. unfold addCallback.
  destruct callback; try done;
    repeat case_decide; cbn; try done;
    by apply inv_addCallback_loop.
Qed.

Lemma inv_Pipe_loop fuel this callbacks result0 s :
  P s → P (state_of (Pipe_loop fuel [] this callbacks result0 s)).
Proof using P_frame P_alloc P_new P_install.
  revert result0 s. induction fuel as [|fuel IH]; intros result0 s Hs; [done|].
  cbn [Pipe_loop]. unfold loadVal, LoadPointer.
  destruct (futures s !! this) as [f|] eqn:Hf; [|done].
  cbn [fmap option_fmap option_map].
  destruct (r (obj (val f))) as [res|] eqn:Hr.
  { apply inv_bind; [|by intros; apply IH].
    unfold pipeSettled.
    repeat (destruct (_ && _)); try done; by apply inv_invokePipe. }
  pose proof (P_new s Hs) as Hnew.
  destruct (NewPromise s) as [promise s1] eqn:HN. cbn [snd] in Hnew.
  pose proof (P_alloc s1 Hnew) as Hs2.
  cbn [alloc interfere snd] in *.
  unfold CompareAndSwapPointer. cbn [futures].
  destruct (futures s1 !! this) as [f'|] eqn:Hf'; [|done].
  case_decide as Haddr; cbn [state_of]; [|by apply IH].
  apply (P_install s1 this f' _ Hnew Hf'); [|by cbn].
  injection HN as _ <-. cbn [futures] in Hf'.
  destruct (decide (next s = this)) as [E|Hne].
  - rewrite E, lookup_insert_eq in Hf'. by simplify_eq.
  - rewrite lookup_insert_ne in Hf' by done. by simplify_eq.
Qed.

Lemma inv_Pipe fuel this callbacks s :
  P s → P (state_of (Pipe fuel [] this callbacks s)).
Proof using P_frame P_alloc P_new P_install.
  intros Hs. unfold Pipe. destruct (noCallbacks callbacks); [done|].
  apply inv_bind; [by apply inv_Pipe_loop|done].
Qed.

Lemma inv_RequestCancel this s :
  P s → P (state_of (RequestCancel [] this s)).
Proof using P_request.
  intros Hs. unfold RequestCancel, LoadInt32.
  destruct (futures s !! this) as [f|] eqn:Hf; [|done]. cbn.
  destruct (cancelStatus f =? 0)%Z eqn:Hc; [|done].
  apply Z.eqb_eq in Hc.
  unfold CompareAndSwapInt32. rewrite Hf. rewrite decide_True by done.
  by apply P_request.
Qed.

Lemma inv_settle this res s :
  P s → P (state_of (settle this res s)).
Proof using P_frame P_settle.
  intros Hs. unfold settle.
  destruct (futures s !! this) as [f|] eqn:Hf; [|done].
  destruct (r (obj (val f))) eqn:Hr; [done|].
  pose proof (P_settle s this f res Hs Hf Hr) as Hs2.
  destruct (Typ res).
  - apply inv_bind; [by apply inv_invokeAll1|]. intros _ s3 Hs3.
    apply inv_bind; [by apply inv_invokeAll1|]. intros _ s4 Hs4.
    by apply inv_firePipes.
  - apply inv_bind; [by apply inv_invokeAll1|]. intros _ s3 Hs3.
    apply inv_bind; [by apply inv_invokeAll1|]. intros _ s4 Hs4.
    by apply inv_firePipes.
  - apply inv_bind; [by apply inv_invokeAll0|]. intros _ s3 Hs3.
    by apply inv_firePipes.
Qed.

Lemma inv_exec s (op : Op World) : P s → P (exec s op).
Proof using All.
  intros Hs. destruct op; cbn [exec].
  - by apply P_new.
  - by apply inv_RequestCancel.
  - apply inv_bind; [by apply inv_addCallback|done].
  - apply inv_bind; [by apply inv_addCallback|done].
  - apply inv_bind; [by apply inv_addCallback|done].
  - apply inv_bind; [by apply inv_addCallback|done].
  - by apply inv_Pipe.
  - by apply inv_settle.
Qed.

Lemma inv_run (ops : list (Op World)) s : P s → P (run ops s).
Proof using All.
  revert s. induction ops as [|op ops IH]; intros s Hs; [done|].
  cbn. apply IH. by apply inv_exec.
Qed.

End Invariant.

(** *** The cancellation flag along a history *)

Lemma flagAgrees_insert s s' p f :
  futures s' = <[p := f]> (futures s) →
  (cancelStatus f = 2%Z ↔ cancelledOutcome f) →
  flagAgrees s → flagAgrees s'.
Proof.
  unfold flagAgrees. intros -> Hf Hs. by apply map_Forall_insert_2.
Qed.

Lemma flagAgrees_lookup s p f :
  flagAgrees s → futures s !! p = Some f →
  cancelStatus f = 2%Z ↔ cancelledOutcome f.
Proof. intros Hs Hf. by apply (Hs p f). Qed.

Lemma pending_not_cancelled f :
  r (obj (val f)) = None → ¬ cancelledOutcome f.
Proof. intros Hr (res & Hres & _). congruence. Qed.

Lemma flagAgrees_run (ops : list (Op World)) s :
  flagAgrees s → flagAgrees (run ops s).
Proof.
  apply inv_run.
  - unfold flagAgrees. by intros s1 s2 -> _.
  - done.
  - intros s1 Hs. eapply flagAgrees_insert; [reflexivity| |done].
    cbn. split; [done|]. by intros (res & ? & _).
  - intros s1 this f newVal Hs Hf Hr Hnew.
    eapply flagAgrees_insert; [reflexivity| |done].
    pose proof (flagAgrees_lookup _ _ _ Hs Hf) as Hinv.
    pose proof (pending_not_cancelled _ Hr) as Hnc.
    split; [cbn; tauto|]. intros (res & Hres & _). cbn in Hres. congruence.
  - intros s1 this f Hs Hf Hc.
    eapply flagAgrees_insert; [reflexivity| |done].
    pose proof (flagAgrees_lookup _ _ _ Hs Hf) as Hinv.
    unfold cancelledOutcome in *. cbn. rewrite <- Hinv, Hc. done.
  - intros s1 this f res Hs Hf Hr.
    eapply flagAgrees_insert; [reflexivity| |done].
    unfold cancelledOutcome. cbn. case_decide as Ht.
    + split; [|done]. intros _. by eexists.
    + pose proof (flagAgrees_lookup _ _ _ Hs Hf) as Hinv.
      pose proof (pending_not_cancelled _ Hr) as Hnc.
      split; [tauto|]. intros (res' & Hres' & Ht'). congruence.
Qed.

Lemma flagAgrees_init (w : World) : flagAgrees (initState w).
Proof. apply map_Forall_empty. Qed.

(** *** Addresses along a history *)

Lemma wfStore_grow s s' :
  futures s' = futures s → next s ≤ next s' → wfStore s → wfStore s'.
Proof.
  intros Hfu Hn (H0 & Hnil & Hall). unfold wfStore. rewrite Hfu.
  split; [lia|]. split; [done|].
  intros p f Hf. destruct (Hall p f Hf). lia.
Qed.

Lemma wfStore_insert s s' p f :
  futures s' = <[p := f]> (futures s) →
  next s ≤ next s' →
  0 < p < next s' →
  addr (val f) < next s' →
  wfStore s → wfStore s'.
Proof.
  intros Hfu Hn Hp Ha (H0 & Hnil & Hall). unfold wfStore. rewrite Hfu.
  split; [lia|]. split.
  - rewrite lookup_insert_ne; [done|]. unfold nil_ptr. lia.
  - apply map_Forall_insert_2; [lia|].
    intros q g Hg. destruct (Hall q g Hg). lia.
Qed.

Lemma wfStore_lookup s p f :
  wfStore s → futures s !! p = Some f →
  0 < p < next s ∧ addr (val f) < next s.
Proof.
  intros (H0 & Hnil & Hall) Hf. destruct (Hall p f Hf) as [Hp Ha].
  split; [|done]. split; [|done].
  destruct p; [|lia]. unfold nil_ptr in Hnil. congruence.
Qed.

Lemma wfStore_run (ops : list (Op World)) s :
  wfStore s → wfStore (run ops s).
Proof.
  apply inv_run.
  - intros s1 s2 Hfu Hn. apply wfStore_grow; [done|lia].
  - intros s1. apply wfStore_grow; [done|cbn; lia].
  - intros s1 Hs. pose proof Hs as (H0 & _).
    eapply wfStore_insert; [reflexivity| | | |done]; cbn; lia.
  - intros s1 this f newVal Hs Hf _ _.
    destruct (wfStore_lookup _ _ _ Hs Hf) as [Hp _].
    eapply wfStore_insert; [reflexivity| | | |done]; cbn; lia.
  - intros s1 this f Hs Hf _.
    destruct (wfStore_lookup _ _ _ Hs Hf) as [Hp Ha].
    eapply wfStore_insert; [reflexivity| | | |done]; cbn; lia.
  - intros s1 this f res Hs Hf _.
    destruct (wfStore_lookup _ _ _ Hs Hf) as [Hp _].
    eapply wfStore_insert; [reflexivity| | | |done]; cbn; lia.
Qed.

Lemma wfStore_init (w : World) : wfStore (initState w).
Proof.
  split; [cbn; lia|]. split; [done|]. apply map_Forall_empty.
Qed.

(** In a store reached by a history the next address of the allocator is
    free: the Promise that [Pipe] creates there is a new one. *)
Lemma history_next_free (w : World) (ops : list (Op World)) :
  let s := run ops (initState w) in
  futures s !! next s = None.
Proof.
  intros s.
  assert (Hs : wfStore s) by apply wfStore_run, wfStore_init.
  destruct (futures s !! next s) as [f|] eqn:Hf; [|done].
  destruct (wfStore_lookup _ _ _ Hs Hf). lia.
Qed.

Lemma IsCancelled_flag this s f :
  futures s !! this = Some f →
  IsCancelled this s = Returned (cancelStatus f =? 2)%Z s.
Proof. intros Hf. unfold IsCancelled, LoadInt32. by rewrite Hf. Qed.

(** [RequestCancel] leaves every snapshot alone. *)
Lemma RequestCancel_val this p s :
  val <$> futures (state_of (RequestCancel [] this s)) !! p
  = val <$> futures s !! p.
Proof.
  unfold RequestCancel, LoadInt32.
  destruct (futures s !! this) as [f|] eqn:Hf; [|done]. cbn.
  destruct (cancelStatus f =? 0)%Z; [|done].
  unfold CompareAndSwapInt32. rewrite Hf.
  case_decide; [|done]. cbn.
  destruct (decide (this = p)) as [<-|Hne].
  - by rewrite lookup_insert_eq, Hf.
  - by rewrite lookup_insert_ne.
Qed.

Lemma run_cons (op : Op World) ops s :
  run (op :: ops) s = run ops (exec s op).
Proof. done. Qed.

Lemma RequestCancel_many_val this p n s :
  val <$> futures (run (replicate n (OpRequestCancel this)) s) !! p
  = val <$> futures s !! p.
Proof.
  revert s. induction n as [|n IH]; intros s; [done|].
  cbn [replicate]. rewrite run_cons, IH. apply RequestCancel_val.
Qed.

Lemma run_app (ops1 ops2 : list (Op World)) s :
  run (ops1 ++ ops2) s = run ops2 (run ops1 s).
Proof. apply foldl_app. Qed.

(** C8.  In every store that a history of calls (creations of Promises,
    [RequestCancel], registrations, [Pipe], settlements) reaches from the
    empty store, [IsCancelled] returns true on a Future exactly when that
    Future is settled with outcome Cancelled; it returns false on every
    pending Future; and on a Future that is not settled as Cancelled it
    still returns false after any number of further [RequestCancel] calls. *)
Theorem IsCancelled_iff_cancelled (w : World) (ops : list (Op World)) this f :
  let s := run ops (initState w) in
  futures s !! this = Some f →
  (IsCancelled this s = Returned true s
   ↔ ∃ res, settledWith this res s ∧ Typ res = RESULT_CANCELLED)
  ∧ (pending this s → IsCancelled this s = Returned false s)
  ∧ ((¬ ∃ res, settledWith this res s ∧ Typ res = RESULT_CANCELLED) →
     ∀ n, let s' := run (replicate n (OpRequestCancel this)) s in
          IsCancelled this s' = Returned false s').
Proof.
  intros s Hf.
  assert (Hs : flagAgrees s) by apply flagAgrees_run, flagAgrees_init.
  pose proof (flagAgrees_lookup _ _ _ Hs Hf) as Hinv.
  assert (Hset : cancelledOutcome f
                 ↔ ∃ res, settledWith this res s ∧ Typ res = RESULT_CANCELLED).
  { unfold cancelledOutcome, settledWith. split.
    - intros (res & Hr & Ht). exists res. split; [by exists f|done].
    - intros (res & (f' & Hf' & Hr) & Ht). exists res. by simplify_eq. }
  rewrite (IsCancelled_flag _ _ _ Hf). repeat split.
  - intros [= Hb]. apply Hset, Hinv. by apply Z.eqb_eq.
  - intros Hc. apply Hset, Hinv in Hc. by rewrite Hc.
  - intros (f' & Hf' & Hr). simplify_eq.
    destruct (cancelStatus f =? 2)%Z eqn:Hb; [|done].
    apply Z.eqb_eq, Hinv in Hb. by destruct (pending_not_cancelled _ Hr).
  - intros Hnc n s'.
    assert (Hs' : flagAgrees s').
    { unfold s', s. rewrite <- run_app.
      apply flagAgrees_run, flagAgrees_init. }
    pose proof (RequestCancel_many_val this this n s) as Hval.
    fold s' in Hval. rewrite Hf in Hval.
    destruct (futures s' !! this) as [f'|] eqn:Hf'; [|done].
    cbn in Hval. injection Hval as Hval.
    rewrite (IsCancelled_flag _ _ _ Hf').
    destruct (cancelStatus f' =? 2)%Z eqn:Hb; [|done].
    apply Z.eqb_eq in Hb.
    apply (flagAgrees_lookup _ _ _ Hs' Hf') in Hb.
    unfold cancelledOutcome in Hb. rewrite Hval in Hb.
    destruct Hnc. by apply Hset.
Qed.

(** *** Get and GetOrTimeout *)

Lemma futures_bind {A B} (m : Outcome World A) (k : A → State World → Outcome World B)
    (fs : gmap nat (Future World)) :
  futures (state_of m) = fs →
  (∀ a s, futures s = fs → futures (state_of (k a s)) = fs) →
  futures (state_of (bind m k)) = fs.
Proof. intros Hm Hk. destruct m; cbn in *; auto. Qed.

Lemma futures_invokeAll1 gs x s :
  futures (state_of (invokeAll1 gs x s)) = futures s.
Proof.
  revert s. induction gs as [|g gs IH]; intros s; [done|].
  cbn [invokeAll1]. apply futures_bind; [by destruct g|].
  intros _ s' <-. apply IH.
Qed.

Lemma futures_invokeAll0 gs s :
  futures (state_of (invokeAll0 gs s)) = futures s.
Proof.
  revert s. induction gs as [|g gs IH]; intros s; [done|].
  cbn [invokeAll0]. apply futures_bind; [by destruct g|].
  intros _ s' <-. apply IH.
Qed.

Lemma futures_firePipes ps res s :
  futures (state_of (firePipes ps res s)) = futures s.
Proof.
  revert s. induction ps as [|p ps IH]; intros s; [done|].
  cbn [firePipes]. destruct (getPipe p _) as [task downstream].
  destruct (_ || _); [by apply IH|].
  apply futures_bind; [by destruct task|].
  intros fu s' <-. by rewrite IH.
Qed.

(** What settling a pending Future leaves in the store for that Future. *)
Lemma futures_settle this res s f :
  futures s !! this = Some f →
  r (obj (val f)) = None →
  futures (state_of (settle this res s)) = futures (terminated this f res s).
Proof.
  intros Hf Hr. unfold settle. rewrite Hf, Hr.
  destruct (Typ res).
  - apply futures_bind; [apply futures_invokeAll1|]. intros _ s3 <-.
    apply futures_bind; [apply futures_invokeAll1|]. intros _ s4 <-.
    apply futures_firePipes.
  - apply futures_bind; [apply futures_invokeAll1|]. intros _ s3 <-.
    apply futures_bind; [apply futures_invokeAll1|]. intros _ s4 <-.
    apply futures_firePipes.
  - apply futures_bind; [apply futures_invokeAll0|]. intros _ s3 <-.
    apply futures_firePipes.
Qed.

Lemma settle_pending this res s f :
  futures s !! this = Some f →
  r (obj (val f)) = None →
  futures (state_of (settle this res s)) !! this
  = Some (settledFuture f (next s) res).
Proof.
  intros Hf Hr. rewrite (futures_settle _ _ _ _ Hf Hr).
  cbn. by rewrite lookup_insert_eq.
Qed.

(** On a Future whose completion signal has not fired [Get] waits. *)
Lemma Get_pending_waits this s f :
  futures s !! this = Some f →
  chEnd f = false →
  Get this s = Blocked s.
Proof. intros Hf Hc. unfold Get, recvEnd. by rewrite Hf, Hc. Qed.

Lemma Get_settled this s f res :
  futures s !! this = Some f →
  chEnd f = true →
  r (obj (val f)) = Some res →
  Get this s = Returned (getFutureReturnVal res) s.
Proof.
  intros Hf Hc Hr. unfold Get, recvEnd. rewrite Hf, Hc. cbn.
  unfold returnVal, result, loadVal, LoadPointer. rewrite Hf. cbn.
  by rewrite Hr.
Qed.

Lemma GetOrTimeout_settled this s f res mm elapsed pick :
  futures s !! this = Some f →
  chEnd f = true →
  r (obj (val f)) = Some res →
  (elapsed < timeoutNanos mm)%Z ∨ pick = EndSignalled →
  GetOrTimeout elapsed pick this mm s
  = Returned ((getFutureReturnVal res).1, (getFutureReturnVal res).2, false) s.
Proof.
  intros Hf Hc Hr Hsel.
  assert (Hval : bind (recvEnd this s) (λ _ s1,
                   bind (returnVal this s1)
                        (λ re s2, Returned (re.1, re.2, false) s2))
                 = Returned ((getFutureReturnVal res).1,
                             (getFutureReturnVal res).2, false) s).
  { unfold recvEnd. rewrite Hf, Hc. cbn.
    unfold returnVal, result, loadVal, LoadPointer. rewrite Hf. cbn.
    by rewrite Hr. }
  unfold GetOrTimeout. rewrite Hf, Hc.
  destruct (timeoutNanos mm <=? elapsed)%Z eqn:Ht; [|done].
  destruct Hsel as [Hlt| ->]; [|done].
  apply Z.leb_le in Ht. lia.
Qed.

Lemma GetOrTimeout_settled_cases this s f res mm elapsed pick :
  futures s !! this = Some f →
  chEnd f = true →
  r (obj (val f)) = Some res →
  GetOrTimeout elapsed pick this mm s
  = Returned ((getFutureReturnVal res).1, (getFutureReturnVal res).2, false) s
  ∨ GetOrTimeout elapsed pick this mm s = Returned (VNil, VNil, true) s.
Proof.
  intros Hf Hc Hr. destruct pick.
  - destruct (timeoutNanos mm <=? elapsed)%Z eqn:Ht.
    + right. unfold GetOrTimeout. by rewrite Hf, Hc, Ht.
    + left. apply (GetOrTimeout_settled _ _ f); try done.
      left. by apply Z.leb_gt.
  - left. apply (GetOrTimeout_settled _ _ f); auto.
Qed.

Lemma GetOrTimeout_store this s mm elapsed pick :
  state_of (GetOrTimeout elapsed pick this mm s) = s.
Proof.
  unfold GetOrTimeout. destruct (futures s !! this) as [f|] eqn:Hf; [|done].
  destruct (selectReady _ _ _) as [[]|]; try done.
  unfold recvEnd. rewrite Hf. destruct (chEnd f); [|done]. cbn.
  unfold returnVal. by destruct (result this s) as [[res|]|].
Qed.

Lemma GetOrTimeout_unsettled this s f mm elapsed pick :
  futures s !! this = Some f →
  chEnd f = false →
  GetOrTimeout elapsed pick this mm s
  = if (timeoutNanos mm <=? elapsed)%Z then Returned (VNil, VNil, true) s
    else Blocked s.
Proof.
  intros Hf Hc. unfold GetOrTimeout. rewrite Hf, Hc.
  by destruct (timeoutNanos mm <=? elapsed)%Z.
Qed.

(** *** Registrations that are overtaken

    The compare-and-swap of line 240 fails when another goroutine has
    installed a snapshot since the load of line 223; the loop then starts
    again from the snapshot it finds. *)

Lemma CAS_stale this old newRef s f :
  futures s !! this = Some f →
  addr (val f) ≠ old →
  CompareAndSwapPointer this old newRef s = Some (false, s).
Proof.
  intros Hf Hne. unfold CompareAndSwapPointer. rewrite Hf.
  by rewrite decide_False.
Qed.

Lemma addCallback_loop_stale fuel e sched this callback t s f f' newVal :
  futures s !! this = Some f →
  r (obj (val f)) = None →
  appendCallback (obj (val f)) callback t = Some newVal →
  futures (e (alloc s).2) !! this = Some f' →
  addr (val f') ≠ addr (val f) →
  addCallback_loop (S fuel) (e :: sched) this callback t s
  = addCallback_loop fuel sched this callback t (e (alloc s).2).
Proof.
  intros Hf Hr Ha Hf' Hne. cbn [addCallback_loop].
  rewrite (loadVal_Some _ _ _ Hf), Hr, Ha. cbn [alloc interfere snd].
  by rewrite (CAS_stale _ _ _ _ _ Hf' Hne).
Qed.

(** X7.  Overtaken by another registration, which runs between the [append]
    of this one and its compare-and-swap: the compare-and-swap fails, the
    loop starts again, and both callbacks are kept, in the order in which
    the two compare-and-swaps succeeded. *)
Lemma OnSuccess_overtaken_by_registration fuel this g h s f :
  futures s !! this = Some f →
  r (obj (val f)) = None →
  addr (val f) < next s →
  let v := obj (val f) in
  let other := λ s0, state_of (OnSuccess 1 [] this (Some h) s0) in
  ∃ s', OnSuccess (S (S fuel)) [other] this (Some g) s = Returned this s'
    ∧ snapshot this s'
      = Some (mkVal (dones v ++ [Some h; Some g]) (fails v) (always v)
                    (cancels v) (pipes v) None)
    ∧ calls s' = calls s.
Proof.
  intros Hf Hr Hlt v other.
  set (s1 := (alloc s).2).
  assert (Hf1 : futures s1 !! this = Some f) by exact Hf.
  pose proof (OnSuccess_pending 0 this (Some h) s1 f Hf1 Hr) as Hother.
  fold v in Hother.
  set (vh := mkVal (dones v ++ [Some h]) (fails v) (always v) (cancels v)
                   (pipes v) None) in *.
  assert (Hos : other s1 = installed this f vh s1).
  { unfold other. by rewrite Hother. }
  assert (Hf2 : futures (other s1) !! this
                = Some (set_val (mkRef (next s1) vh) f)).
  { rewrite Hos. unfold installed. cbn [futures]. by rewrite lookup_insert_eq. }
  unfold OnSuccess at 1. unfold addCallback. simpl decide. cbn [assertFunc1].
  rewrite (addCallback_loop_stale (S fuel) other [] this (IFunc1 (Some g))
             CALLBACK_DONE s f _ _ Hf Hr eq_refl Hf2) by (cbn; lia).
  fold s1.
  rewrite (addCallback_loop_pending fuel this (IFunc1 (Some g)) CALLBACK_DONE
             (other s1) _ _ Hf2 eq_refl eq_refl).
  cbn [bind]. eexists. split; [reflexivity|].
  rewrite installed_snapshot. split; [|by rewrite Hos].
  cbn. by rewrite <- app_assoc.
Qed.

(** Overtaken by the settlement: the callback is not queued but called at
    once, within the registration. *)
Lemma OnSuccess_overtaken_by_settlement fuel this g s f res :
  futures s !! this = Some f →
  r (obj (val f)) = None →
  addr (val f) < next s →
  Typ res = RESULT_SUCCESS →
  let other := λ s0, state_of (settle this res s0) in
  OnSuccess (S (S fuel)) [other] this (Some g) s
  = Returned this (called1 g (Result res) (other (alloc s).2)).
Proof.
  intros Hf Hr Hlt Ht other.
  set (s1 := (alloc s).2).
  assert (Hf1 : futures s1 !! this = Some f) by exact Hf.
  pose proof (settle_pending this res s1 f Hf1 Hr) as Hf2.
  fold (other s1) in Hf2.
  unfold OnSuccess, addCallback. simpl decide. cbn [assertFunc1].
  rewrite (addCallback_loop_stale (S fuel) other [] this (IFunc1 (Some g))
             CALLBACK_DONE s f _ _ Hf Hr eq_refl Hf2) by (cbn; lia).
  fold s1.
  rewrite (addCallback_loop_settled fuel [] this (IFunc1 (Some g)) CALLBACK_DONE
             (other s1) _ res Hf2 eq_refl).
  by rewrite runCallback_done.
Qed.

(** *** Registration of a nil func on a settled Future *)

Lemma OnSuccess_nil_on_resolved fuel sched this s f res :
  futures s !! this = Some f →
  r (obj (val f)) = Some res →
  Typ res = RESULT_SUCCESS →
  OnSuccess (S fuel) sched this None s = Panicked PanicNilDeref s.
Proof.
  intros Hf Hr Ht. unfold OnSuccess, addCallback. simpl decide.
  rewrite (addCallback_loop_settled _ _ _ _ _ _ _ _ Hf Hr).
  unfold runCallback. by rewrite Ht.
Qed.

Lemma OnCancel_nil_on_cancelled fuel sched this s f res :
  futures s !! this = Some f →
  r (obj (val f)) = Some res →
  Typ res = RESULT_CANCELLED →
  OnCancel (S fuel) sched this None s = Panicked PanicNilDeref s.
Proof.
  intros Hf Hr Ht. unfold OnCancel, addCallback. simpl decide.
  rewrite (addCallback_loop_settled _ _ _ _ _ _ _ _ Hf Hr).
  unfold runCallback. by rewrite Ht.
Qed.

(** On a settled Future whose timer has run out as well, both cases of the
    [select] can proceed and the runtime decides: the call returns the
    Result or times out. *)
Lemma GetOrTimeout_both_ready this s f res mm elapsed :
  futures s !! this = Some f →
  chEnd f = true →
  r (obj (val f)) = Some res →
  (timeoutNanos mm ≤ elapsed)%Z →
  GetOrTimeout elapsed TimerFired this mm s = Returned (VNil, VNil, true) s
  ∧ GetOrTimeout elapsed EndSignalled this mm s
    = Returned ((getFutureReturnVal res).1, (getFutureReturnVal res).2, false) s.
Proof.
  intros Hf Hc Hr Hd. split.
  - unfold GetOrTimeout. rewrite Hf, Hc. by apply Z.leb_le in Hd as ->.
  - apply (GetOrTimeout_settled _ _ f); auto.
Qed.

(** C9.  When the timer has run out and the Future has not settled, its
    completion signal not fired, [GetOrTimeout] returns [(nil, nil, true)],
    whatever the runtime would pick; and [GetOrTimeout] never changes the
    store: nothing is received or used up.  Hence in any store that comes
    later, once the Future carries a Result and its signal has fired, [Get]
    returns what that Result gives, and a [GetOrTimeout] returns that too,
    with [false], or times out once more; it returns the Result whenever
    its own timer has not run out or the runtime picks the signal.  This is
    the case after the Future, pending when the timer fired, has been
    settled.  A duration of 0 is turned into one of 10 nanoseconds: on the
    Future that has not settled the call waits until 10 nanoseconds have
    elapsed and then times out. *)
Theorem GetOrTimeout_timeout_keeps_result this s f mm elapsed pick :
  futures s !! this = Some f →
  chEnd f = false →
  (timeoutNanos mm ≤ elapsed)%Z →
  GetOrTimeout elapsed pick this mm s = Returned (VNil, VNil, true) s
  ∧ (∀ s0 mm0 elapsed0 pick0,
       state_of (GetOrTimeout elapsed0 pick0 this mm0 s0) = s0)
  ∧ (∀ s' f' res,
       futures s' !! this = Some f' →
       chEnd f' = true →
       r (obj (val f')) = Some res →
       let got := Returned ((getFutureReturnVal res).1,
                            (getFutureReturnVal res).2, false) s' in
       Get this s' = Returned (getFutureReturnVal res) s'
       ∧ ∀ mm' elapsed' pick',
           (GetOrTimeout elapsed' pick' this mm' s' = got
            ∨ GetOrTimeout elapsed' pick' this mm' s'
              = Returned (VNil, VNil, true) s')
           ∧ ((elapsed' < timeoutNanos mm')%Z ∨ pick' = EndSignalled →
              GetOrTimeout elapsed' pick' this mm' s' = got))
  ∧ (r (obj (val f)) = None →
     ∀ res, let s' := state_of (settle this res s) in
            Get this s' = Returned (getFutureReturnVal res) s'
            ∧ ∀ mm' elapsed',
                GetOrTimeout elapsed' EndSignalled this mm' s'
                = Returned ((getFutureReturnVal res).1,
                            (getFutureReturnVal res).2, false) s')
  ∧ timeoutNanos 0 = 10%Z
  ∧ (∀ elapsed0 pick0, (elapsed0 < 10)%Z →
       GetOrTimeout elapsed0 pick0 this 0 s = Blocked s)
  ∧ (∀ elapsed0 pick0, (10 ≤ elapsed0)%Z →
       GetOrTimeout elapsed0 pick0 this 0 s = Returned (VNil, VNil, true) s).
Proof.
  intros Hf Hc Hd. repeat apply conj.
  - rewrite (GetOrTimeout_unsettled _ _ _ _ _ _ Hf Hc).
    by apply Z.leb_le in Hd as ->.
  - intros s0 mm0 elapsed0 pick0. apply GetOrTimeout_store.
  - intros s' f' res Hf' Hc' Hr got. split.
    + by apply (Get_settled _ _ f').
    + intros mm' elapsed' pick'. split.
      * by apply (GetOrTimeout_settled_cases _ _ f').
      * by apply (GetOrTimeout_settled _ _ f').
  - intros Hr res s'.
    pose proof (settle_pending this res s f Hf Hr) as Hf'. split.
    + by apply (Get_settled _ _ _ _ Hf').
    + intros mm' elapsed'.
      apply (GetOrTimeout_settled _ _ _ _ _ _ _ Hf'); auto.
  - done.
  - intros elapsed0 pick0 He.
    rewrite (GetOrTimeout_unsettled _ _ _ _ _ _ Hf Hc).
    change (timeoutNanos 0) with 10%Z. by apply Z.leb_gt in He as ->.
  - intros elapsed0 pick0 He.
    rewrite (GetOrTimeout_unsettled _ _ _ _ _ _ Hf Hc).
    change (timeoutNanos 0) with 10%Z. by apply Z.leb_le in He as ->.
Qed.

End Properties.

(** * The properties on the sample stores *)

Lemma pendingStore_lookup : futures pendingStore !! 1 = Some pendingFuture.
Proof. reflexivity. Qed.

Lemma resolvedStore_lookup : futures resolvedStore !! 1 = Some resolvedFuture.
Proof. reflexivity. Qed.

(** C1 (as stated) fails: with no callbacks [Pipe] does not return
    [ok = true]. *)
Lemma Pipe_without_callbacks_not_ok :
  Pipe 1 [] 1 [] pendingStore ≠ Returned (1, true) pendingStore.
Proof.
  unfold Pipe. cbn [noCallbacks length Nat.eqb orb]. intros [=].
Qed.

(** C2 (what the code does).  A nil callback is not ignored.  On a pending
    Future each of the four registrations installs a snapshot whose list
    holds the nil func; on a resolved Future [OnSuccess(nil)] calls the nil
    func and panics, and so does [OnCancel(nil)] on a cancelled one.  The
    nil func reaches [addCallback] inside an interface value that is not
    nil, and the test of line 207 does not stop it. *)
Theorem nil_callback_is_not_ignored :
  snapshot 1 pendingStore = Some (mkVal [] [] [] [] [] None)
  ∧ (∃ s', OnSuccess 1 [] 1 None pendingStore = Returned 1 s'
       ∧ snapshot 1 s' = Some (mkVal [None] [] [] [] [] None))
  ∧ (∃ s', OnFailure 1 [] 1 None pendingStore = Returned 1 s'
       ∧ snapshot 1 s' = Some (mkVal [] [None] [] [] [] None))
  ∧ (∃ s', OnComplete 1 [] 1 None pendingStore = Returned 1 s'
       ∧ snapshot 1 s' = Some (mkVal [] [] [None] [] [] None))
  ∧ (∃ s', OnCancel 1 [] 1 None pendingStore = Returned 1 s'
       ∧ snapshot 1 s' = Some (mkVal [] [] [] [None] [] None))
  ∧ OnSuccess 1 [] 1 None resolvedStore = Panicked PanicNilDeref resolvedStore
  ∧ OnCancel 1 [] 1 None cancelledStore = Panicked PanicNilDeref cancelledStore.
Proof.
  split; [reflexivity|].
  repeat apply conj; try (eexists; split; [|apply installed_snapshot]).
  - by apply (OnSuccess_pending 0 1 None pendingStore pendingFuture).
  - by apply (OnFailure_pending 0 1 None pendingStore pendingFuture).
  - by apply (OnComplete_pending 0 1 None pendingStore pendingFuture).
  - by apply (OnCancel_pending 0 1 None pendingStore pendingFuture).
  - by apply (OnSuccess_nil_on_resolved 0 [] 1 resolvedStore resolvedFuture resolved5).
  - reflexivity.
Qed.

Lemma registration_on_settled_witness :
  futures resolvedStore !! 1 = Some resolvedFuture
  ∧ r (obj (val resolvedFuture)) = Some resolved5
  ∧ OnSuccess 1 [] 1 (Some bump) resolvedStore
    = Returned 1 (called1 bump (VInt 5) resolvedStore).
Proof.
  split; [reflexivity|]. split; [reflexivity|].
  destruct (registration_on_settled_calls_once 0 [] 1 resolvedStore
              resolvedFuture resolved5 eq_refl eq_refl) as (H & _).
  apply (H bump). reflexivity.
Defined.

Lemma registration_on_pending_witness :
  futures pendingStore !! 1 = Some pendingFuture
  ∧ r (obj (val pendingFuture)) = None
  ∧ ∃ s', OnSuccess 1 [] 1 (Some bump) pendingStore = Returned 1 s'
      ∧ snapshot 1 s' = Some (mkVal [Some bump] [] [] [] [] None)
      ∧ (∀ p, p ≠ 1 → snapshot p s' = snapshot p pendingStore)
      ∧ world s' = 0%Z ∧ calls s' = [].
Proof.
  split; [reflexivity|]. split; [reflexivity|].
  destruct (registration_on_pending_appends 0 1 pendingStore pendingFuture
              eq_refl eq_refl) as (H & _).
  apply (H bump).
Defined.

Lemma Pipe_on_pending_witness :
  futures pendingStore !! 1 = Some pendingFuture
  ∧ r (obj (val pendingFuture)) = None
  ∧ futures pendingStore !! next pendingStore = None
  ∧ (index [Some chain] 0 ≠ None ∨ index [Some chain] 1 ≠ None)
  ∧ ∃ s', Pipe 1 [] 1 [Some chain] pendingStore = Returned (3, true) s'
      ∧ snapshot 1 s'
        = Some (mkVal [] [] [] [] [mkPipe (Some chain) None (mkPromise 3)] None)
      ∧ snapshot 3 s' = Some emptyVal
      ∧ (∀ p, p ≠ 1 → p ≠ 3 → snapshot p s' = snapshot p pendingStore)
      ∧ world s' = 0%Z ∧ calls s' = [].
Proof.
  assert (Hcb : index [Some chain] 0 ≠ None ∨ index [Some chain] 1 ≠ None).
  { left. discriminate. }
  split; [reflexivity|]. split; [reflexivity|]. split; [reflexivity|].
  split; [exact Hcb|].
  apply (Pipe_on_pending_appends 0 1 [Some chain] pendingStore pendingFuture
           eq_refl eq_refl eq_refl Hcb).
Defined.

Lemma Pipe_on_settled_witness :
  settledWith 1 resolved5 resolvedStore
  ∧ (index [Some chain] 0 ≠ None ∨ index [Some chain] 1 ≠ None)
  ∧ ∃ s', Pipe 3 [] 1 [Some chain] resolvedStore = OutOfFuel s'
      ∧ futures s' = futures resolvedStore.
Proof.
  assert (Hs : settledWith 1 resolved5 resolvedStore).
  { exists resolvedFuture. split; reflexivity. }
  assert (Hcb : index [Some chain] 0 ≠ None ∨ index [Some chain] 1 ≠ None).
  { left. discriminate. }
  split; [exact Hs|]. split; [exact Hcb|].
  apply (Pipe_on_settled_never_returns 3 [] 1 [Some chain] resolvedStore
           resolved5 Hs Hcb).
Defined.

(** Three turns of the loop on the resolved Future: three calls of the
    continuation, on 5 each time. *)
Lemma Pipe_on_resolved_three_calls :
  ∃ s', Pipe 3 [] 1 [Some chain] resolvedStore = OutOfFuel s'
    ∧ calls s' = [CallPipe chain (VInt 5); CallPipe chain (VInt 5);
                  CallPipe chain (VInt 5)]
    ∧ world s' = 15%Z.
Proof. eexists. split; [reflexivity|]. split; reflexivity. Qed.

Lemma RequestCancel_witness :
  futures pendingStore !! 1 = Some pendingFuture
  ∧ cancelStatus pendingFuture = 0%Z
  ∧ RequestCancel [] 1 pendingStore
    = Returned true (requested 1 pendingFuture pendingStore)
  ∧ LoadInt32 1 (requested 1 pendingFuture pendingStore) = Some 1%Z
  ∧ RequestCancel [] 1 (requested 1 pendingFuture pendingStore)
    = Returned false (requested 1 pendingFuture pendingStore).
Proof.
  split; [reflexivity|]. split; [reflexivity|].
  destruct (RequestCancel_transition 1 pendingStore pendingFuture eq_refl)
    as (H & _).
  apply H. reflexivity.
Defined.

Lemma RequestCancel_overtaken_witness :
  futures pendingStore !! 1 = Some pendingFuture
  ∧ cancelStatus pendingFuture = 0%Z
  ∧ RequestCancel [] 1 pendingStore
    = Returned true (state_of (RequestCancel [] 1 pendingStore))
  ∧ LoadInt32 1 (state_of (RequestCancel [] 1 pendingStore)) = Some 1%Z
  ∧ CompareAndSwapInt32 1 0 1 (state_of (RequestCancel [] 1 pendingStore))
    = Some (false, state_of (RequestCancel [] 1 pendingStore))
  ∧ RequestCancel [λ s0, state_of (RequestCancel [] 1 s0)] 1 pendingStore
    = Returned true (state_of (RequestCancel [] 1 pendingStore)).
Proof.
  split; [reflexivity|]. split; [reflexivity|].
  apply (RequestCancel_overtaken 1 pendingStore pendingFuture eq_refl eq_refl).
Defined.

Lemma IsCancelled_witness :
  futures cancelledStore !! 1
  = Some (mkFuture 1 true
            (mkRef 3 (mkVal [] [] [] [] [] (Some (mkResult VNil RESULT_CANCELLED))))
            2)
  ∧ (IsCancelled 1 cancelledStore = Returned true cancelledStore
     ↔ ∃ res, settledWith 1 res cancelledStore ∧ Typ res = RESULT_CANCELLED).
Proof.
  split; [reflexivity|].
  apply (IsCancelled_iff_cancelled 0%Z
           [OpNewPromise; OpSettle 1 (mkResult VNil RESULT_CANCELLED)] 1
           (mkFuture 1 true
              (mkRef 3 (mkVal [] [] [] [] [] (Some (mkResult VNil RESULT_CANCELLED))))
              2)
           eq_refl).
Defined.

(** The test of the spec: a wait of one millisecond on a Future that is
    resolved later. *)
Lemma GetOrTimeout_witness :
  futures pendingStore !! 1 = Some pendingFuture
  ∧ chEnd pendingFuture = false
  ∧ (timeoutNanos 1 ≤ 1000000)%Z
  ∧ GetOrTimeout 1000000 EndSignalled 1 1 pendingStore
    = Returned (VNil, VNil, true) pendingStore
  ∧ Get 1 resolvedStore = Returned (VInt 5, VNil) resolvedStore.
Proof.
  assert (Hd : (timeoutNanos 1 ≤ 1000000)%Z) by (vm_compute; discriminate).
  split; [reflexivity|]. split; [reflexivity|]. split; [exact Hd|].
  destruct (GetOrTimeout_timeout_keeps_result 1 pendingStore pendingFuture 1
              1000000 EndSignalled eq_refl eq_refl Hd)
    as (H1 & _ & _ & H4 & _).
  split; [exact H1|].
  apply (H4 eq_refl resolved5).
Defined.

Lemma addCallback_wrong_type_witness :
  IOther "int" ≠ @INil Z
  ∧ (∀ g, IOther "int" ≠ @IFunc1 Z g)
  ∧ addCallback 1 [] 1 (IOther "int") CALLBACK_DONE pendingStore
    = Panicked (PanicError "Callback function spec must be func(v interface{})")
               pendingStore
  ∧ (∀ g, IFunc1 (Some bump) ≠ IFunc0 g)
  ∧ addCallback 1 [] 1 (IFunc1 (Some bump)) CALLBACK_CANCEL pendingStore
    = Panicked (PanicError "Callback function spec must be func()") pendingStore.
Proof.
  assert (H1 : IOther "int" ≠ @INil Z) by discriminate.
  assert (H2 : ∀ g, IOther "int" ≠ @IFunc1 Z g) by discriminate.
  assert (H3 : IFunc1 (Some bump) ≠ @INil Z) by discriminate.
  assert (H4 : ∀ g, IFunc1 (Some bump) ≠ IFunc0 g) by discriminate.
  split; [exact H1|]. split; [exact H2|].
  split.
  - destruct (addCallback_wrong_type_panics 1 [] 1 (IOther "int")
                CALLBACK_DONE pendingStore H1) as (H & _).
    apply H; [by left | exact H2].
  - split; [exact H4|].
    destruct (addCallback_wrong_type_panics 1 [] 1 (IFunc1 (Some bump))
                CALLBACK_CANCEL pendingStore H3) as (_ & H).
    apply H; [reflexivity | exact H4].
Defined.

(** * Further properties of future.go *)

Section Coverage.

Context {World : Type}.

Implicit Types (s : State World) (f : Future World) (v : futureVal World).
Implicit Types (this : ptr) (fuel : nat) (sched : Sched World).
Implicit Types (res : PromiseResult).

(** *** Registrations that find another outcome *)

(** X1.  On a settled Future a registration whose kind does not match the
    outcome returns the receiver and does nothing else: the callback, nil or
    not, is neither called nor kept, and the store is the one the call
    found.  [OnSuccess] on a rejected or cancelled Future, [OnFailure] on a
    resolved or cancelled one, [OnComplete] on a cancelled one, [OnCancel]
    on a resolved or rejected one. *)
Theorem registration_of_other_kind_is_dropped fuel sched this s f res :
  futures s !! this = Some f →
  r (obj (val f)) = Some res →
  (Typ res ≠ RESULT_SUCCESS →
   ∀ cb, OnSuccess (S fuel) sched this cb s = Returned this s)
  ∧ (Typ res ≠ RESULT_FAILURE →
     ∀ cb, OnFailure (S fuel) sched this cb s = Returned this s)
  ∧ (Typ res = RESULT_CANCELLED →
     ∀ cb, OnComplete (S fuel) sched this cb s = Returned this s)
  ∧ (Typ res ≠ RESULT_CANCELLED →
     ∀ cb, OnCancel (S fuel) sched this cb s = Returned this s).
Proof.
  intros Hf Hr.
  repeat apply conj; intros Ht cb;
    unfold OnSuccess, OnFailure, OnComplete, OnCancel, addCallback;
    simpl decide;
    rewrite (addCallback_loop_settled _ _ _ _ _ _ _ _ Hf Hr);
    unfold runCallback; destruct (Typ res); done.
Qed.

(** *** Calls on a receiver that is no Future *)

Lemma missing_receiver_panics fuel sched this s :
  futures s !! this = None →
  RequestCancel sched this s = Panicked PanicNilDeref s
  ∧ IsCancelled this s = Panicked PanicNilDeref s
  ∧ Get this s = Panicked PanicNilDeref s
  ∧ (∀ elapsed pick mm,
       GetOrTimeout elapsed pick this mm s = Panicked PanicNilDeref s)
  ∧ (∀ cb, OnSuccess (S fuel) sched this cb s = Panicked PanicNilDeref s)
  ∧ (∀ cb, OnFailure (S fuel) sched this cb s = Panicked PanicNilDeref s)
  ∧ (∀ cb, OnComplete (S fuel) sched this cb s = Panicked PanicNilDeref s)
  ∧ (∀ cb, OnCancel (S fuel) sched this cb s = Panicked PanicNilDeref s)
  ∧ (∀ callbacks, noCallbacks callbacks = false →
       Pipe (S fuel) sched this callbacks s = Panicked PanicNilDeref s).
Proof.
  intros Hf. repeat apply conj.
  - unfold RequestCancel, LoadInt32. by rewrite Hf.
  - unfold IsCancelled, LoadInt32. by rewrite Hf.
  - unfold Get, recvEnd. by rewrite Hf.
  - intros elapsed pick mm. unfold GetOrTimeout. by rewrite Hf.
  - intros cb. unfold OnSuccess, addCallback. simpl decide.
    cbn [assertFunc1 addCallback_loop]. unfold loadVal, LoadPointer.
    by rewrite Hf.
  - intros cb. unfold OnFailure, addCallback. simpl decide.
    cbn [assertFunc1 addCallback_loop]. unfold loadVal, LoadPointer.
    by rewrite Hf.
  - intros cb. unfold OnComplete, addCallback. simpl decide.
    cbn [assertFunc1 addCallback_loop]. unfold loadVal, LoadPointer.
    by rewrite Hf.
  - intros cb. unfold OnCancel, addCallback. simpl decide.
    cbn [assertFunc0 addCallback_loop]. unfold loadVal, LoadPointer.
    by rewrite Hf.
  - intros callbacks Hcb. unfold Pipe. rewrite Hcb.
    cbn [Pipe_loop]. unfold loadVal, LoadPointer. by rewrite Hf.
Qed.

(** X2.  In every store that a history reaches nothing lives at the nil
    address, and every method called on the nil receiver panics on its
    first access to a field, with the store untouched: [RequestCancel],
    [IsCancelled], [Get], [GetOrTimeout], the four registrations whatever
    the callback, and [Pipe] unless its callbacks make it return at line
    157. *)
Theorem calls_on_nil_receiver_panic (w : World) (ops : list (Op World))
    fuel sched :
  let s := run ops (initState w) in
  futures s !! nil_ptr = None
  ∧ RequestCancel sched nil_ptr s = Panicked PanicNilDeref s
  ∧ IsCancelled nil_ptr s = Panicked PanicNilDeref s
  ∧ Get nil_ptr s = Panicked PanicNilDeref s
  ∧ (∀ elapsed pick mm,
       GetOrTimeout elapsed pick nil_ptr mm s = Panicked PanicNilDeref s)
  ∧ (∀ cb, OnSuccess (S fuel) sched nil_ptr cb s = Panicked PanicNilDeref s)
  ∧ (∀ cb, OnFailure (S fuel) sched nil_ptr cb s = Panicked PanicNilDeref s)
  ∧ (∀ cb, OnComplete (S fuel) sched nil_ptr cb s = Panicked PanicNilDeref s)
  ∧ (∀ cb, OnCancel (S fuel) sched nil_ptr cb s = Panicked PanicNilDeref s)
  ∧ (∀ callbacks, noCallbacks callbacks = false →
       Pipe (S fuel) sched nil_ptr callbacks s = Panicked PanicNilDeref s).
Proof.
  intros s.
  assert (Hnil : futures s !! nil_ptr = None).
  { assert (Hs : wfStore s) by apply wfStore_run, wfStore_init.
    by destruct Hs as (_ & Hnil & _). }
  split; [done|]. by apply missing_receiver_panics.
Qed.

(** *** A registration kind that is none of the four *)

(** X3.  [addCallback] with a kind other than the four constants checks no
    type and matches no case of the [switch]: on a pending Future it
    installs a copy of the snapshot with nothing added, whatever the
    callback is, and on a settled Future it returns at once; nothing is
    called and there is no panic. *)
Theorem addCallback_of_unknown_kind fuel this (callback : iface World) t s f :
  futures s !! this = Some f →
  callback ≠ INil →
  t ≠ CALLBACK_DONE → t ≠ CALLBACK_FAIL →
  t ≠ CALLBACK_ALWAYS → t ≠ CALLBACK_CANCEL →
  (r (obj (val f)) = None →
   addCallback (S fuel) [] this callback t s
   = Returned tt (installed this f (obj (val f)) s))
  ∧ (∀ res sched, r (obj (val f)) = Some res →
       addCallback (S fuel) sched this callback t s = Returned tt s).
Proof.
  intros Hf Hnil H0 H1 H2 H3.
  assert (Hadd : ∀ sched, addCallback (S fuel) sched this callback t s
                 = addCallback_loop (S fuel) sched this callback t s).
  { intros sched. unfold addCallback. destruct callback; [done| | |];
      rewrite decide_False by (intros [?|[?|?]]; done);
      by rewrite decide_False. }
  split.
  - intros Hr. rewrite Hadd.
    apply (addCallback_loop_pending _ _ _ _ _ _ _ Hf Hr).
    unfold appendCallback. by rewrite !decide_False.
  - intros res sched Hr. rewrite Hadd.
    rewrite (addCallback_loop_settled _ _ _ _ _ _ _ _ Hf Hr).
    unfold runCallback.
    rewrite !bool_decide_eq_false_2 by (intros [? _]; done). done.
Qed.

(** *** The callbacks of Pipe after the second *)

Lemma Pipe_loop_two fuel sched this (c0 c1 : pipeFunc World) rest result0 s :
  Pipe_loop fuel sched this (c0 :: c1 :: rest) result0 s
  = Pipe_loop fuel sched this [c0; c1] result0 s.
Proof.
  revert sched result0 s.
  induction fuel as [|fuel IH]; intros sched result0 s; [done|].
  cbn [Pipe_loop].
  destruct (loadVal this s) as [v|]; [|done].
  destruct (r (obj v)) as [res|].
  - assert (E : pipeSettled this (c0 :: c1 :: rest) res s
                = pipeSettled this [c0; c1] res s) by done.
    rewrite E. destruct (pipeSettled this [c0; c1] res s); cbn [bind]; auto.
  - destruct (NewPromise s) as [promise s1].
    assert (E : makePipe (c0 :: c1 :: rest) promise = makePipe [c0; c1] promise)
      by done.
    rewrite E. destruct (alloc s1) as [a s2].
    destruct (interfere sched s2) as [s3 sched'].
    destruct (CompareAndSwapPointer _ _ _ _) as [[[] s4]|]; auto.
Qed.

(** X4.  [Pipe] reads its first two callbacks only: with more than two it
    does what it does with the first two, in every store and under every
    schedule.  In particular [Pipe(nil, nil, f)] returns the receiver with
    [ok = false] and never registers [f]. *)
Theorem Pipe_reads_two_callbacks fuel sched this (c0 c1 : pipeFunc World) rest s :
  Pipe fuel sched this (c0 :: c1 :: rest) s = Pipe fuel sched this [c0; c1] s
  ∧ Pipe fuel sched this (None :: None :: rest) s = Returned (this, false) s.
Proof.
  split; [|done].
  unfold Pipe.
  assert (E : noCallbacks (c0 :: c1 :: rest) = noCallbacks [c0; c1]) by done.
  rewrite E. destruct (noCallbacks [c0; c1]); [done|].
  by rewrite Pipe_loop_two.
Qed.

(** *** The duration of GetOrTimeout *)

Lemma wrap_int_range z : (- 2 ^ 63 ≤ wrap_int z < 2 ^ 63)%Z.
Proof.
  unfold wrap_int.
  pose proof (Z.mod_pos_bound (z + 2 ^ 63) (2 ^ 64) ltac:(lia)). lia.
Qed.

Lemma wrap_int_small z : (- 2 ^ 63 ≤ z < 2 ^ 63)%Z → wrap_int z = z.
Proof.
  intros Hz. unfold wrap_int. rewrite Z.mod_small by lia. lia.
Qed.

(** X5.  The timer of [GetOrTimeout] always gets a duration that fits in 64
    bits.  An argument other than 0 between -9223372036854 and
    9223372036854, whose product by a million does not overflow, is taken
    as that many milliseconds; for an argument from 1 to 9223372036854 the
    wait is longer than the 10 nanoseconds that the argument 0 gives.  The
    bound is sharp: at 9223372036855 the product wraps around and the
    duration is negative. *)
Theorem timeoutNanos_milliseconds (mm : Z) :
  (- 2 ^ 63 ≤ timeoutNanos mm < 2 ^ 63)%Z
  ∧ (mm ≠ 0%Z → (- 9223372036854 ≤ mm ≤ 9223372036854)%Z →
     timeoutNanos mm = (mm * 1000000)%Z)
  ∧ ((1 ≤ mm ≤ 9223372036854)%Z → (timeoutNanos 0 < timeoutNanos mm)%Z)
  ∧ timeoutNanos 9223372036855 = (- 9223372036854551616)%Z.
Proof.
  assert (Hexact : mm ≠ 0%Z → (- 9223372036854 ≤ mm ≤ 9223372036854)%Z →
                   timeoutNanos mm = (mm * 1000000)%Z).
  { intros Hne Hmm. unfold timeoutNanos.
    apply Z.eqb_neq in Hne as ->.
    rewrite (wrap_int_small (mm * 1000)) by lia.
    rewrite wrap_int_small by lia. lia. }
  split; [|split; [|split]].
  - unfold timeoutNanos. destruct (mm =? 0)%Z; [lia|apply wrap_int_range].
  - done.
  - intros Hmm. rewrite Hexact by lia. cbn. lia.
  - reflexivity.
Qed.

(** *** The loop of addCallback ends *)

Lemma addCallback_loop_ends fuel sched this (callback : iface World) t s :
  length sched < fuel →
  ∀ s', addCallback_loop fuel sched this callback t s ≠ OutOfFuel s'.
Proof.
  revert sched s. induction fuel as [|fuel IH]; intros sched s Hlen s'; [lia|].
  cbn [addCallback_loop]. unfold loadVal, LoadPointer.
  destruct (futures s !! this) as [f|] eqn:Hf; [|done].
  cbn [fmap option_fmap option_map].
  destruct (r (obj (val f))) as [res|].
  { unfold runCallback.
    destruct (_ || _).
    - destruct (assertFunc1 callback) as [[g|]|]; done.
    - destruct (bool_decide _); [|done].
      destruct (assertFunc0 callback) as [[g|]|]; done. }
  destruct (appendCallback _ _ _) as [newVal|]; [|done].
  cbn [alloc]. destruct sched as [|e sched']; cbn [interfere].
  - unfold CompareAndSwapPointer. cbn [futures]. rewrite Hf.
    by rewrite decide_True.
  - destruct (CompareAndSwapPointer _ _ _ _) as [[[] s4]|]; try done.
    apply IH. cbn in Hlen. lia.
Qed.

(** X6.  A registration makes at most one attempt more than the number of
    times other goroutines step in between its load and its
    compare-and-swap: with that much fuel the loop of [addCallback] is
    never found still running, whatever the others do to the store, the
    kind, the callback and the store. *)
Theorem registration_ends fuel sched this s :
  length sched < fuel →
  ∀ s',
    (∀ cb, OnSuccess fuel sched this cb s ≠ OutOfFuel s')
    ∧ (∀ cb, OnFailure fuel sched this cb s ≠ OutOfFuel s')
    ∧ (∀ cb, OnComplete fuel sched this cb s ≠ OutOfFuel s')
    ∧ (∀ cb, OnCancel fuel sched this cb s ≠ OutOfFuel s')
    ∧ (∀ callback t, addCallback fuel sched this callback t s ≠ OutOfFuel s').
Proof.
  intros Hlen s'.
  assert (Hadd : ∀ callback t,
            addCallback fuel sched this callback t s ≠ OutOfFuel s').
  { intros callback t. unfold addCallback.
    destruct callback; [done| | |];
      repeat case_decide; cbn [assertFunc1 assertFunc0]; try done;
      by apply addCallback_loop_ends. }
  assert (Hbind : ∀ m : Outcome World unit,
            m ≠ OutOfFuel s' →
            bind m (λ _ s1, Returned this s1) ≠ OutOfFuel s').
  { intros m Hm. destruct m; cbn; congruence. }
  repeat apply conj; try done; intros cb; by apply Hbind.
Qed.

(** *** A registration that loses against the settlement *)

(** X8.  When, between the load of a registration and its compare-and-swap,
    other goroutines have replaced the snapshot by one that carries a
    Success, the compare-and-swap fails and the second turn of the loop
    calls the callback at once, on the payload, in the store the others
    left: the callback is not queued and not lost. *)
Theorem registration_overtaken_by_settlement fuel this g
    (e : State World → State World) s f f' res :
  futures s !! this = Some f →
  r (obj (val f)) = None →
  futures (e (alloc s).2) !! this = Some f' →
  addr (val f') ≠ addr (val f) →
  r (obj (val f')) = Some res →
  Typ res = RESULT_SUCCESS →
  OnSuccess (S (S fuel)) [e] this (Some g) s
  = Returned this (called1 g (Result res) (e (alloc s).2)).
Proof.
  intros Hf Hr Hf' Hne Hr' Ht.
  unfold OnSuccess, addCallback. simpl decide. cbn [assertFunc1].
  rewrite (addCallback_loop_stale (S fuel) e [] this (IFunc1 (Some g))
             CALLBACK_DONE s f f' _ Hf Hr eq_refl Hf' Hne).
  rewrite (addCallback_loop_settled fuel [] this (IFunc1 (Some g)) CALLBACK_DONE
             _ _ res Hf' Hr').
  by rewrite runCallback_done.
Qed.

(** *** Several registrations *)

Lemma installed_lookup this f (newVal : futureVal World) s :
  futures (installed this f newVal s) !! this
  = Some (set_val (mkRef (next s) newVal) f).
Proof. unfold installed. cbn [futures]. by rewrite lookup_insert_eq. Qed.

Lemma run_OnSuccess this (cbs : list (func1 World)) s f :
  futures s !! this = Some f →
  r (obj (val f)) = None →
  ∃ f', futures (run (map (OpOnSuccess 1 this) cbs) s) !! this = Some f'
    ∧ obj (val f')
      = mkVal (dones (obj (val f)) ++ cbs) (fails (obj (val f)))
              (always (obj (val f))) (cancels (obj (val f)))
              (pipes (obj (val f))) None
    ∧ calls (run (map (OpOnSuccess 1 this) cbs) s) = calls s.
Proof.
  revert s f. induction cbs as [|cb cbs IH]; intros s f Hf Hr.
  { exists f. split; [done|]. split; [|done].
    rewrite app_nil_r, <- Hr. by destruct (obj (val f)). }
  cbn [map]. rewrite run_cons. cbn [exec].
  rewrite (OnSuccess_pending 0 this cb s f Hf Hr). cbn [state_of].
  match goal with
  | |- context [installed this f ?V s] =>
      destruct (IH _ _ (installed_lookup this f V s) eq_refl)
        as (f' & Hf' & Hv & Hc)
  end.
  exists f'. split; [done|]. split; [|done].
  rewrite Hv. cbn. by rewrite <- app_assoc.
Qed.

Lemma run_OnFailure this (cbs : list (func1 World)) s f :
  futures s !! this = Some f →
  r (obj (val f)) = None →
  ∃ f', futures (run (map (OpOnFailure 1 this) cbs) s) !! this = Some f'
    ∧ obj (val f')
      = mkVal (dones (obj (val f))) (fails (obj (val f)) ++ cbs)
              (always (obj (val f))) (cancels (obj (val f)))
              (pipes (obj (val f))) None
    ∧ calls (run (map (OpOnFailure 1 this) cbs) s) = calls s.
Proof.
  revert s f. induction cbs as [|cb cbs IH]; intros s f Hf Hr.
  { exists f. split; [done|]. split; [|done].
    rewrite app_nil_r, <- Hr. by destruct (obj (val f)). }
  cbn [map]. rewrite run_cons. cbn [exec].
  rewrite (OnFailure_pending 0 this cb s f Hf Hr). cbn [state_of].
  match goal with
  | |- context [installed this f ?V s] =>
      destruct (IH _ _ (installed_lookup this f V s) eq_refl)
        as (f' & Hf' & Hv & Hc)
  end.
  exists f'. split; [done|]. split; [|done].
  rewrite Hv. cbn. by rewrite <- app_assoc.
Qed.

Lemma run_OnComplete this (cbs : list (func1 World)) s f :
  futures s !! this = Some f →
  r (obj (val f)) = None →
  ∃ f', futures (run (map (OpOnComplete 1 this) cbs) s) !! this = Some f'
    ∧ obj (val f')
      = mkVal (dones (obj (val f))) (fails (obj (val f)))
              (always (obj (val f)) ++ cbs) (cancels (obj (val f)))
              (pipes (obj (val f))) None
    ∧ calls (run (map (OpOnComplete 1 this) cbs) s) = calls s.
Proof.
  revert s f. induction cbs as [|cb cbs IH]; intros s f Hf Hr.
  { exists f. split; [done|]. split; [|done].
    rewrite app_nil_r, <- Hr. by destruct (obj (val f)). }
  cbn [map]. rewrite run_cons. cbn [exec].
  rewrite (OnComplete_pending 0 this cb s f Hf Hr). cbn [state_of].
  match goal with
  | |- context [installed this f ?V s] =>
      destruct (IH _ _ (installed_lookup this f V s) eq_refl)
        as (f' & Hf' & Hv & Hc)
  end.
  exists f'. split; [done|]. split; [|done].
  rewrite Hv. cbn. by rewrite <- app_assoc.
Qed.

Lemma run_OnCancel this (cbs : list (func0 World)) s f :
  futures s !! this = Some f →
  r (obj (val f)) = None →
  ∃ f', futures (run (map (OpOnCancel 1 this) cbs) s) !! this = Some f'
    ∧ obj (val f')
      = mkVal (dones (obj (val f))) (fails (obj (val f)))
              (always (obj (val f))) (cancels (obj (val f)) ++ cbs)
              (pipes (obj (val f))) None
    ∧ calls (run (map (OpOnCancel 1 this) cbs) s) = calls s.
Proof.
  revert s f. induction cbs as [|cb cbs IH]; intros s f Hf Hr.
  { exists f. split; [done|]. split; [|done].
    rewrite app_nil_r, <- Hr. by destruct (obj (val f)). }
  cbn [map]. rewrite run_cons. cbn [exec].
  rewrite (OnCancel_pending 0 this cb s f Hf Hr). cbn [state_of].
  match goal with
  | |- context [installed this f ?V s] =>
      destruct (IH _ _ (installed_lookup this f V s) eq_refl)
        as (f' & Hf' & Hv & Hc)
  end.
  exists f'. split; [done|]. split; [|done].
  rewrite Hv. cbn. by rewrite <- app_assoc.
Qed.

(** X9.  Callbacks registered one after the other on a pending Future are
    kept in the order of the calls: after any number of [OnSuccess] calls
    the list [dones] of the snapshot is the former one followed by the
    callbacks in call order, the other lists and the absent Result being
    as before, and none has been called; likewise [fails] for [OnFailure],
    [always] for [OnComplete] and [cancels] for [OnCancel]. *)
Theorem registrations_keep_call_order this s f :
  futures s !! this = Some f →
  r (obj (val f)) = None →
  let v := obj (val f) in
  (∀ cbs, let s' := run (map (OpOnSuccess 1 this) cbs) s in
     snapshot this s'
     = Some (mkVal (dones v ++ cbs) (fails v) (always v) (cancels v) (pipes v) None)
     ∧ calls s' = calls s)
  ∧ (∀ cbs, let s' := run (map (OpOnFailure 1 this) cbs) s in
       snapshot this s'
       = Some (mkVal (dones v) (fails v ++ cbs) (always v) (cancels v) (pipes v) None)
       ∧ calls s' = calls s)
  ∧ (∀ cbs, let s' := run (map (OpOnComplete 1 this) cbs) s in
       snapshot this s'
       = Some (mkVal (dones v) (fails v) (always v ++ cbs) (cancels v) (pipes v) None)
       ∧ calls s' = calls s)
  ∧ (∀ cbs, let s' := run (map (OpOnCancel 1 this) cbs) s in
       snapshot this s'
       = Some (mkVal (dones v) (fails v) (always v) (cancels v ++ cbs) (pipes v) None)
       ∧ calls s' = calls s).
Proof.
  intros Hf Hr v. repeat apply conj; intros cbs s'; unfold s', snapshot.
  - destruct (run_OnSuccess this cbs s f Hf Hr) as (f' & -> & Hv & Hc).
    cbn. by rewrite Hv.
  - destruct (run_OnFailure this cbs s f Hf Hr) as (f' & -> & Hv & Hc).
    cbn. by rewrite Hv.
  - destruct (run_OnComplete this cbs s f Hf Hr) as (f' & -> & Hv & Hc).
    cbn. by rewrite Hv.
  - destruct (run_OnCancel this cbs s f Hf Hr) as (f' & -> & Hv & Hc).
    cbn. by rewrite Hv.
Qed.

(** Two snapshots installed one after the other on the same Future. *)
Lemma installed_twice this f (v1 v2 : futureVal World) s :
  installed this (set_val (mkRef (next s) v1) f) v2 (installed this f v1 s)
  = mkState (<[this := set_val (mkRef (S (next s)) v2) f]> (futures s))
            (S (S (next s))) (world s) (calls s).
Proof.
  unfold installed. cbn [futures next world calls].
  by rewrite insert_insert_eq.
Qed.

(** A registration that follows an installation on the same Future. *)
Ltac second_registration lem :=
  intros Hr1;
  erewrite lem by (apply installed_lookup || exact Hr1);
  cbn [state_of val set_val obj dones fails always cancels pipes];
  by rewrite installed_twice.

Lemma OnSuccess_after this a f (v1 : futureVal World) s :
  r v1 = None →
  state_of (OnSuccess 1 [] this a (installed this f v1 s))
  = mkState (<[this := set_val (mkRef (S (next s))
                          (mkVal (dones v1 ++ [a]) (fails v1) (always v1)
                                 (cancels v1) (pipes v1) None)) f]> (futures s))
            (S (S (next s))) (world s) (calls s).
Proof. second_registration (@OnSuccess_pending World 0). Qed.

Lemma OnFailure_after this a f (v1 : futureVal World) s :
  r v1 = None →
  state_of (OnFailure 1 [] this a (installed this f v1 s))
  = mkState (<[this := set_val (mkRef (S (next s))
                          (mkVal (dones v1) (fails v1 ++ [a]) (always v1)
                                 (cancels v1) (pipes v1) None)) f]> (futures s))
            (S (S (next s))) (world s) (calls s).
Proof. second_registration (@OnFailure_pending World 0). Qed.

Lemma OnComplete_after this a f (v1 : futureVal World) s :
  r v1 = None →
  state_of (OnComplete 1 [] this a (installed this f v1 s))
  = mkState (<[this := set_val (mkRef (S (next s))
                          (mkVal (dones v1) (fails v1) (always v1 ++ [a])
                                 (cancels v1) (pipes v1) None)) f]> (futures s))
            (S (S (next s))) (world s) (calls s).
Proof. second_registration (@OnComplete_pending World 0). Qed.

Lemma OnCancel_after this a f (v1 : futureVal World) s :
  r v1 = None →
  state_of (OnCancel 1 [] this a (installed this f v1 s))
  = mkState (<[this := set_val (mkRef (S (next s))
                          (mkVal (dones v1) (fails v1) (always v1)
                                 (cancels v1 ++ [a]) (pipes v1) None)) f]> (futures s))
            (S (S (next s))) (world s) (calls s).
Proof. second_registration (@OnCancel_pending World 0). Qed.

Ltac two_registrations Hf Hr :=
  rewrite !run_cons; cbn [run foldl exec];
  rewrite ?(OnSuccess_pending 0 _ _ _ _ Hf Hr),
          ?(OnFailure_pending 0 _ _ _ _ Hf Hr),
          ?(OnComplete_pending 0 _ _ _ _ Hf Hr),
          ?(OnCancel_pending 0 _ _ _ _ Hf Hr);
  cbn [state_of];
  rewrite ?OnSuccess_after, ?OnFailure_after, ?OnComplete_after,
          ?OnCancel_after by reflexivity;
  reflexivity.

(** X10.  On a pending Future two registrations of different kinds can be
    made in either order: the store they leave is the same, each callback
    being at the end of the list of its kind. *)
Theorem registrations_of_different_kinds_commute this s f
    (a b : func1 World) (c : func0 World) :
  futures s !! this = Some f →
  r (obj (val f)) = None →
  run [OpOnSuccess 1 this a; OpOnFailure 1 this b] s
  = run [OpOnFailure 1 this b; OpOnSuccess 1 this a] s
  ∧ run [OpOnSuccess 1 this a; OpOnComplete 1 this b] s
    = run [OpOnComplete 1 this b; OpOnSuccess 1 this a] s
  ∧ run [OpOnFailure 1 this a; OpOnComplete 1 this b] s
    = run [OpOnComplete 1 this b; OpOnFailure 1 this a] s
  ∧ run [OpOnSuccess 1 this a; OpOnCancel 1 this c] s
    = run [OpOnCancel 1 this c; OpOnSuccess 1 this a] s
  ∧ run [OpOnFailure 1 this a; OpOnCancel 1 this c] s
    = run [OpOnCancel 1 this c; OpOnFailure 1 this a] s
  ∧ run [OpOnComplete 1 this a; OpOnCancel 1 this c] s
    = run [OpOnCancel 1 this c; OpOnComplete 1 this a] s.
Proof.
  intros Hf Hr. repeat apply conj; two_registrations Hf Hr.
Qed.

(** *** What the calls of future.go leave alone *)

Lemma grows_refl v : grows v v.
Proof. by repeat split. Qed.

Lemma grows_trans v1 v2 v3 : grows v1 v2 → grows v2 v3 → grows v1 v3.
Proof.
  intros (H1 & H2 & H3 & H4 & H5 & H6) (K1 & K2 & K3 & K4 & K5 & K6).
  repeat split; try (by etrans); congruence.
Qed.

Lemma keeps_intro f f' :
  Id f' = Id f →
  chEnd f' = chEnd f →
  grows (obj (val f)) (obj (val f')) →
  cancelStatus f' = cancelStatus f
  ∨ (cancelStatus f = 0%Z ∧ cancelStatus f' = 1%Z) →
  keeps f f'.
Proof. unfold keeps. auto. Qed.

Lemma keeps_refl f : keeps f f.
Proof. apply keeps_intro; auto using grows_refl. Qed.

Lemma keeps_trans f1 f2 f3 : keeps f1 f2 → keeps f2 f3 → keeps f1 f3.
Proof.
  intros (H1 & H2 & H3 & H4) (K1 & K2 & K3 & K4).
  split; [congruence|]. split; [congruence|].
  split; [by eapply grows_trans|]. lia.
Qed.

Lemma preserves_refl s : preserves s s.
Proof. split; [done|]. intros p f Hf. exists f. split; [done|apply keeps_refl]. Qed.

Lemma preserves_trans s1 s2 s3 :
  preserves s1 s2 → preserves s2 s3 → preserves s1 s3.
Proof.
  intros [Hn1 H1] [Hn2 H2]. split; [lia|].
  intros p f Hf. destruct (H1 p f Hf) as (f2 & Hf2 & Hk2).
  destruct (H2 p f2 Hf2) as (f3 & Hf3 & Hk3).
  exists f3. split; [done|]. by eapply keeps_trans.
Qed.

Lemma preserves_same s s' :
  futures s' = futures s → next s ≤ next s' → preserves s s'.
Proof.
  intros Hfu Hn. split; [done|]. intros p f Hf. exists f.
  rewrite Hfu. split; [done|apply keeps_refl].
Qed.

Lemma preserves_insert s s' this f f' :
  futures s !! this = Some f →
  futures s' = <[this := f']> (futures s) →
  next s ≤ next s' →
  keeps f f' →
  preserves s s'.
Proof.
  intros Hf Hfu Hn Hk. split; [done|]. intros p g Hg. rewrite Hfu.
  destruct (decide (this = p)) as [<-|Hne].
  - rewrite lookup_insert_eq. exists f'. split; [done|]. by simplify_eq.
  - rewrite lookup_insert_ne by done. exists g. split; [done|apply keeps_refl].
Qed.

Lemma appendCallback_grows v (callback : iface World) t newVal :
  appendCallback v callback t = Some newVal → grows v newVal.
Proof.
  unfold appendCallback. intros H.
  repeat case_decide; simplify_option_eq;
    repeat split; cbn; try done; try (by apply prefix_app_r).
Qed.

Lemma runCallback_store res (callback : iface World) t s :
  futures (state_of (runCallback res callback t s)) = futures s
  ∧ next (state_of (runCallback res callback t s)) = next s.
Proof.
  unfold runCallback. destruct (_ || _).
  - by destruct (assertFunc1 callback) as [[g|]|].
  - destruct (bool_decide _); [|done].
    by destruct (assertFunc0 callback) as [[g|]|].
Qed.

Lemma addCallback_loop_preserves fuel this (callback : iface World) t s :
  preserves s (state_of (addCallback_loop fuel [] this callback t s)).
Proof.
  destruct fuel as [|fuel]; [apply preserves_refl|].
  cbn [addCallback_loop]. unfold loadVal, LoadPointer.
  destruct (futures s !! this) as [f|] eqn:Hf; [|apply preserves_refl].
  cbn [fmap option_fmap option_map].
  destruct (r (obj (val f))) as [res|] eqn:Hr.
  { destruct (runCallback_store res callback t s) as [Hfu Hn].
    apply preserves_same; [done|lia]. }
  destruct (appendCallback _ _ _) as [newVal|] eqn:Ha; [|apply preserves_refl].
  cbn [alloc interfere]. unfold CompareAndSwapPointer. cbn [futures].
  rewrite Hf. rewrite decide_True by done. cbn [state_of].
  eapply (preserves_insert _ _ this f); [done|reflexivity|cbn; lia|].
  apply keeps_intro; auto.
  by apply (appendCallback_grows _ _ _ _ Ha).
Qed.

Lemma addCallback_preserves fuel this (callback : iface World) t s :
  preserves s (state_of (addCallback fuel [] this callback t s)).
Proof.
  unfold addCallback.
  destruct callback; try apply preserves_refl;
    repeat case_decide; cbn [assertFunc1 assertFunc0];
    try apply preserves_refl; apply addCallback_loop_preserves.
Qed.

Lemma bind_this_state (m : Outcome World unit) this :
  state_of (bind m (λ _ s', Returned this s')) = state_of m.
Proof. by destruct m. Qed.

Lemma RequestCancel_preserves this s :
  preserves s (state_of (RequestCancel [] this s)).
Proof.
  unfold RequestCancel, LoadInt32.
  destruct (futures s !! this) as [f|] eqn:Hf; [|apply preserves_refl]. cbn.
  destruct (cancelStatus f =? 0)%Z eqn:Hc; [|apply preserves_refl].
  apply Z.eqb_eq in Hc.
  unfold CompareAndSwapInt32. rewrite Hf. rewrite decide_True by done.
  cbn [state_of].
  eapply (preserves_insert _ _ this f); [done|reflexivity|done|].
  apply keeps_intro; auto using grows_refl.
Qed.

Lemma pipeSettled_store this (callbacks : list (pipeFunc World)) res s :
  ∃ result1 s', pipeSettled this callbacks res s = Returned result1 s'
    ∧ futures s' = futures s ∧ next s' = next s.
Proof.
  unfold pipeSettled.
  destruct (bool_decide (Typ res = RESULT_SUCCESS) && negb (isNil (index callbacks 0)))
    eqn:E1.
  { apply andb_prop in E1 as [_ E1].
    destruct (index callbacks 0); [|done]. cbn. by eexists _, _. }
  destruct (bool_decide (Typ res = RESULT_FAILURE) && (1 <? length callbacks)
            && negb (isNil (index callbacks 1))) eqn:E2.
  { apply andb_prop in E2 as [_ E2].
    destruct (index callbacks 1); [|done]. cbn. by eexists _, _. }
  by eexists _, _.
Qed.

Lemma preserves_piped this f (callbacks : list (pipeFunc World)) s :
  futures s !! this = Some f →
  futures s !! next s = None →
  preserves s (piped this f callbacks s).
Proof.
  intros Hf Hfresh. split; [cbn; lia|]. intros p g Hg.
  assert (Hp : next s ≠ p) by (intros E; rewrite E, Hg in Hfresh; done).
  unfold piped. cbn [futures].
  destruct (decide (this = p)) as [<-|Hne].
  - rewrite lookup_insert_eq. eexists. split; [done|]. simplify_eq.
    apply keeps_intro; auto.
    repeat split; try done. by apply prefix_app_r.
  - rewrite !lookup_insert_ne by done. exists g. split; [done|apply keeps_refl].
Qed.

Lemma Pipe_loop_pending fuel this (callbacks : list (pipeFunc World)) result0 s f :
  futures s !! this = Some f →
  r (obj (val f)) = None →
  futures s !! next s = None →
  Pipe_loop (S fuel) [] this callbacks result0 s
  = Returned (next s) (piped this f callbacks s).
Proof.
  intros Hf Hr Hfresh.
  assert (Hne : next s ≠ this) by (intros E; rewrite E, Hf in Hfresh; done).
  cbn [Pipe_loop]. rewrite (loadVal_Some _ _ _ Hf), Hr.
  cbn [NewPromise alloc interfere]. unfold CompareAndSwapPointer.
  cbn [futures]. rewrite lookup_insert_ne by done. rewrite Hf.
  by rewrite decide_True.
Qed.

Lemma Pipe_loop_preserves fuel this (callbacks : list (pipeFunc World)) result0 s :
  futures s !! next s = None →
  preserves s (state_of (Pipe_loop fuel [] this callbacks result0 s)).
Proof.
  revert result0 s.
  induction fuel as [|fuel IH]; intros result0 s Hfresh; [apply preserves_refl|].
  destruct (futures s !! this) as [f|] eqn:Hf.
  2: { cbn [Pipe_loop]. unfold loadVal, LoadPointer. rewrite Hf.
       apply preserves_refl. }
  destruct (r (obj (val f))) as [res|] eqn:Hr.
  - cbn [Pipe_loop]. rewrite (loadVal_Some _ _ _ Hf), Hr.
    destruct (pipeSettled_store this callbacks res s)
      as (r1 & s1 & -> & Hfu & Hn).
    cbn [bind]. apply (preserves_trans _ s1).
    + apply preserves_same; [done|lia].
    + apply IH. by rewrite Hfu, Hn.
  - rewrite (Pipe_loop_pending _ _ _ _ _ _ Hf Hr Hfresh).
    by apply preserves_piped.
Qed.

Lemma wfStore_next_free s : wfStore s → futures s !! next s = None.
Proof.
  intros Hs. destruct (futures s !! next s) as [f|] eqn:Hf; [|done].
  destruct (wfStore_lookup _ _ _ Hs Hf). lia.
Qed.

Lemma exec_preserves s (op : Op World) :
  wfStore s → fromFuture op = true → preserves s (exec s op).
Proof.
  intros Hs Hop. destruct op; try done; cbn [exec].
  - apply RequestCancel_preserves.
  - unfold OnSuccess. rewrite bind_this_state. apply addCallback_preserves.
  - unfold OnFailure. rewrite bind_this_state. apply addCallback_preserves.
  - unfold OnComplete. rewrite bind_this_state. apply addCallback_preserves.
  - unfold OnCancel. rewrite bind_this_state. apply addCallback_preserves.
  - unfold Pipe. destruct (noCallbacks callbacks); [apply preserves_refl|].
    assert (E : ∀ m : Outcome World nat,
              state_of (bind m (λ r1 s', Returned (r1, true) s')) = state_of m)
      by (by intros []).
    rewrite E. apply Pipe_loop_preserves. by apply wfStore_next_free.
Qed.

(** X11.  Whatever calls of [future.go] a program makes ([RequestCancel],
    the four registrations, [Pipe], each running undisturbed), every Future
    of the store is still there afterwards with the same Id, the same
    Result (none if it had none), its completion signal as it was, every
    callback and pipe it had, in place, with new ones only after them, and
    its flag either unchanged or moved from NotRequested to Requested.
    These calls never settle a Future, never fire its signal, never drop or
    reorder what was registered. *)
Theorem future_calls_preserve (ops : list (Op World)) s :
  wfStore s →
  Forall (λ op, fromFuture op = true) ops →
  preserves s (run ops s).
Proof.
  revert s. induction ops as [|op ops IH]; intros s Hs Hops.
  { apply preserves_refl. }
  apply Forall_cons in Hops as [Hop Hops]. rewrite run_cons.
  apply (preserves_trans _ (exec s op)).
  - by apply exec_preserves.
  - apply IH; [|done]. apply (wfStore_run [op] s Hs).
Qed.

(** *** The pipes that Pipe stores *)

Lemma Pipe_pending_store fuel this (callbacks : list (pipeFunc World)) s f :
  futures s !! this = Some f →
  r (obj (val f)) = None →
  futures s !! next s = None →
  noCallbacks callbacks = false →
  Pipe (S fuel) [] this callbacks s
  = Returned (next s, true) (piped this f callbacks s).
Proof.
  intros Hf Hr Hfresh Hcb. unfold Pipe. rewrite Hcb.
  by rewrite (Pipe_loop_pending _ _ _ _ _ _ Hf Hr Hfresh).
Qed.

Lemma piped_lookup this f (callbacks : list (pipeFunc World)) s :
  futures (piped this f callbacks s) !! this
  = Some (set_val (mkRef (S (S (next s)))
                     (appendPipe (obj (val f))
                        (makePipe callbacks (mkPromise (next s))))) f).
Proof. unfold piped. cbn [futures]. by rewrite lookup_insert_eq. Qed.

(** X12.  What [getPipe] reads from the record that [Pipe] has stored on a
    pending Future: asked for the resolved case it gives the first callback
    of that [Pipe] call, asked for the other case the second one (nil when
    there was a single callback), and in both cases the Promise whose
    Future the [Pipe] call returned. *)
Theorem getPipe_of_stored_pipe fuel this (callbacks : list (pipeFunc World)) s f :
  futures s !! this = Some f →
  r (obj (val f)) = None →
  futures s !! next s = None →
  noCallbacks callbacks = false →
  ∃ fu s' p,
    Pipe (S fuel) [] this callbacks s = Returned (fu, true) s'
    ∧ pipes <$> snapshot this s' = Some (pipes (obj (val f)) ++ [p])
    ∧ getPipe p true = (index callbacks 0, mkPromise fu)
    ∧ getPipe p false = (index callbacks 1, mkPromise fu).
Proof.
  intros Hf Hr Hfresh Hcb.
  exists (next s), (piped this f callbacks s),
         (makePipe callbacks (mkPromise (next s))).
  split; [by apply Pipe_pending_store|].
  split; [unfold snapshot; by rewrite piped_lookup|].
  rewrite makePipe_fields. done.
Qed.

(** X13.  Two [Pipe] calls in a row on a pending Future return two
    different Futures, neither of them the receiver, both pending with
    nothing registered, and the receiver holds the two pipes after the ones
    it had, in the order of the calls, each with the Promise of the Future
    returned by its call. *)
Theorem Pipe_twice this (cbs1 cbs2 : list (pipeFunc World)) s f :
  wfStore s →
  futures s !! this = Some f →
  r (obj (val f)) = None →
  noCallbacks cbs1 = false →
  noCallbacks cbs2 = false →
  ∃ fu1 fu2 s1 s2,
    Pipe 1 [] this cbs1 s = Returned (fu1, true) s1
    ∧ Pipe 1 [] this cbs2 s1 = Returned (fu2, true) s2
    ∧ fu1 ≠ fu2 ∧ fu1 ≠ this ∧ fu2 ≠ this
    ∧ pipes <$> snapshot this s2
      = Some (pipes (obj (val f))
              ++ [makePipe cbs1 (mkPromise fu1); makePipe cbs2 (mkPromise fu2)])
    ∧ snapshot fu1 s2 = Some emptyVal
    ∧ snapshot fu2 s2 = Some emptyVal.
Proof.
  intros Hs Hf Hr Hcb1 Hcb2.
  pose proof (wfStore_next_free s Hs) as Hfresh.
  destruct (wfStore_lookup _ _ _ Hs Hf) as [Hthis _].
  pose proof (Pipe_pending_store 0 this cbs1 s f Hf Hr Hfresh Hcb1) as H1.
  set (s1 := piped this f cbs1 s) in *.
  assert (Hs1 : wfStore s1).
  { pose proof (wfStore_run [OpPipe 1 this cbs1] s Hs) as Hw.
    cbn [run foldl exec] in Hw. by rewrite H1 in Hw. }
  pose proof (wfStore_next_free s1 Hs1) as Hfresh1.
  pose proof (piped_lookup this f cbs1 s) as Hf1. fold s1 in Hf1.
  set (f1 := set_val (mkRef (S (S (next s)))
                        (appendPipe (obj (val f))
                           (makePipe cbs1 (mkPromise (next s))))) f) in *.
  pose proof (Pipe_pending_store 0 this cbs2 s1 f1 Hf1 Hr Hfresh1 Hcb2) as H2.
  exists (next s), (next s1), s1, (piped this f1 cbs2 s1).
  split; [done|]. split; [done|].
  assert (Hn1 : next s1 = S (S (S (next s)))) by done.
  split; [lia|]. split; [lia|]. split; [lia|].
  unfold snapshot. split; [|split].
  - rewrite piped_lookup. cbn. by rewrite <- app_assoc.
  - unfold piped at 1. cbn [futures].
    rewrite !lookup_insert_ne by lia.
    unfold s1, piped. cbn [futures].
    rewrite lookup_insert_ne by lia. by rewrite lookup_insert_eq.
  - unfold piped at 1. cbn [futures].
    rewrite lookup_insert_ne by lia. by rewrite lookup_insert_eq.
Qed.

(** *** Pipe on a settled Future, turn after turn *)

Lemma Pipe_loop_rejected_calls fuel sched this (callbacks : list (pipeFunc World))
    result0 s res g :
  settledWith this res s →
  Typ res = RESULT_FAILURE →
  index callbacks 1 = Some g →
  ∃ s', Pipe_loop fuel sched this callbacks result0 s = OutOfFuel s'
    ∧ calls s' = calls s ++ replicate fuel (CallPipe g (Result res))
    ∧ futures s' = futures s.
Proof.
  intros Hs Ht Hg.
  assert (Hlen : (1 <? length callbacks) = true).
  { apply index_1_length. by rewrite Hg. }
  revert result0 s Hs.
  induction fuel as [|fuel IH]; intros result0 s Hs.
  { eexists. split; [done|]. split; [|done]. cbn. by rewrite app_nil_r. }
  destruct Hs as (f & Hf & Hr). cbn [Pipe_loop].
  rewrite (loadVal_Some _ _ _ Hf), Hr.
  unfold pipeSettled. rewrite Ht, Hg, Hlen. simpl.
  edestruct IH as (s' & -> & Hc & Hfu); [by exists f|].
  exists s'. split; [done|]. split; [|done].
  rewrite Hc. cbn. by rewrite <- app_assoc.
Qed.

Lemma Pipe_loop_idle fuel sched this (callbacks : list (pipeFunc World))
    result0 s res :
  settledWith this res s →
  pipeSettled this callbacks res s = Returned this s →
  Pipe_loop fuel sched this callbacks result0 s = OutOfFuel s.
Proof.
  intros Hs Hidle. revert result0.
  induction fuel as [|fuel IH]; intros result0; [done|].
  destruct Hs as (f & Hf & Hr). cbn [Pipe_loop].
  rewrite (loadVal_Some _ _ _ Hf), Hr, Hidle. cbn [bind]. apply IH.
Qed.

(** X14.  What the loop of [Pipe] does on a settled Future while it runs:
    on a resolved Future every turn calls the first callback again on the
    payload, on a rejected one every turn calls the second callback again,
    so that after [n] turns the continuation has been called [n] times; on
    a cancelled Future, and when the callback for the outcome is nil or
    missing, the turns call nothing and leave the store as it is. *)
Theorem Pipe_on_settled_turns fuel sched this (callbacks : list (pipeFunc World))
    s res :
  settledWith this res s →
  noCallbacks callbacks = false →
  (∀ g, Typ res = RESULT_SUCCESS → index callbacks 0 = Some g →
     ∃ s', Pipe fuel sched this callbacks s = OutOfFuel s'
       ∧ calls s' = calls s ++ replicate fuel (CallPipe g (Result res)))
  ∧ (∀ g, Typ res = RESULT_FAILURE → index callbacks 1 = Some g →
       ∃ s', Pipe fuel sched this callbacks s = OutOfFuel s'
         ∧ calls s' = calls s ++ replicate fuel (CallPipe g (Result res)))
  ∧ (Typ res = RESULT_CANCELLED
     ∨ (Typ res = RESULT_SUCCESS ∧ index callbacks 0 = None)
     ∨ (Typ res = RESULT_FAILURE ∧ index callbacks 1 = None) →
     Pipe fuel sched this callbacks s = OutOfFuel s).
Proof.
  intros Hs Hcb. unfold Pipe. rewrite Hcb. repeat apply conj.
  - intros g Ht Hg.
    destruct (Pipe_loop_resolved_calls fuel sched this callbacks nil_ptr s res g
                Hs Ht Hg) as (s' & -> & Hc).
    by exists s'.
  - intros g Ht Hg.
    destruct (Pipe_loop_rejected_calls fuel sched this callbacks nil_ptr s res g
                Hs Ht Hg) as (s' & -> & Hc & _).
    by exists s'.
  - intros Hidle.
    rewrite (Pipe_loop_idle fuel sched this callbacks nil_ptr s res Hs); [done|].
    unfold pipeSettled.
    destruct Hidle as [Ht|[[Ht Hg]|[Ht Hg]]]; rewrite Ht; simpl;
      rewrite ?Hg; simpl; rewrite ?andb_false_r; done.
Qed.

(** *** RequestCancel, again and again *)

Lemma exec_RequestCancel this s f :
  futures s !! this = Some f →
  ∃ f', futures (exec s (OpRequestCancel this)) !! this = Some f'
    ∧ Id f' = Id f ∧ chEnd f' = chEnd f ∧ val f' = val f
    ∧ cancelStatus f' = afterRequests 1 (cancelStatus f).
Proof.
  intros Hf. cbn [exec]. unfold afterRequests.
  destruct (cancelStatus f =? 0)%Z eqn:Hc.
  - apply Z.eqb_eq in Hc. rewrite (RequestCancel_first _ _ _ Hf Hc).
    cbn [state_of]. unfold requested. cbn [futures set_futures].
    rewrite lookup_insert_eq. by eexists.
  - apply Z.eqb_neq in Hc. rewrite (RequestCancel_again _ _ _ _ Hf Hc).
    by exists f.
Qed.

Lemma afterRequests_S n c :
  afterRequests n (afterRequests 1 c) = afterRequests (S n) c.
Proof.
  unfold afterRequests. destruct (c =? 0)%Z eqn:Hc; [done|]. by rewrite Hc.
Qed.

(** X15.  However many times [RequestCancel] is called on a Future, its
    flag ends at Requested if it was at NotRequested and at least one call
    was made, and where it was otherwise; its Id, its completion signal and
    its snapshot are untouched, and [IsCancelled] answers after the calls
    what it answered before them. *)
Theorem RequestCancel_many_times this n s f :
  futures s !! this = Some f →
  let s' := run (replicate n (OpRequestCancel this)) s in
  (∃ f', futures s' !! this = Some f'
     ∧ Id f' = Id f ∧ chEnd f' = chEnd f ∧ val f' = val f
     ∧ cancelStatus f' = afterRequests n (cancelStatus f))
  ∧ IsCancelled this s' = Returned (cancelStatus f =? 2)%Z s'.
Proof.
  intros Hf s'.
  assert (H : ∃ f', futures s' !! this = Some f'
     ∧ Id f' = Id f ∧ chEnd f' = chEnd f ∧ val f' = val f
     ∧ cancelStatus f' = afterRequests n (cancelStatus f)).
  { unfold s'. clear s'. revert s f Hf.
    induction n as [|n IH]; intros s f Hf.
    { exists f. repeat split; try done. unfold afterRequests.
      destruct (cancelStatus f =? 0)%Z eqn:Hc; [|done]. by apply Z.eqb_eq in Hc. }
    cbn [replicate]. rewrite run_cons.
    destruct (exec_RequestCancel this s f Hf) as (f1 & Hf1 & HI & HC & HV & HS).
    destruct (IH _ _ Hf1) as (f' & Hf' & HI' & HC' & HV' & HS').
    exists f'. split; [done|].
    rewrite HI', HC', HV', HS', HS, afterRequests_S. done. }
  split; [done|].
  destruct H as (f' & Hf' & _ & _ & _ & Hc).
  rewrite (IsCancelled_flag _ _ _ Hf'), Hc. f_equal.
  unfold afterRequests. destruct (cancelStatus f =? 0)%Z eqn:Hz; [|done].
  apply Z.eqb_eq in Hz. rewrite Hz. by destruct n.
Qed.

End Coverage.

(** * The further properties on the sample stores *)

Lemma pendingStore_wf : wfStore pendingStore.
Proof. apply (wfStore_run [OpNewPromise]), wfStore_init. Qed.

Lemma registration_of_other_kind_witness :
  futures rejectedStore !! 1 = Some rejectedFuture
  ∧ r (obj (val rejectedFuture)) = Some rejectedBoom
  ∧ Typ rejectedBoom ≠ RESULT_SUCCESS
  ∧ OnSuccess 1 [] 1 (Some bump) rejectedStore = Returned 1 rejectedStore.
Proof.
  assert (Ht : Typ rejectedBoom ≠ RESULT_SUCCESS) by discriminate.
  split; [reflexivity|]. split; [reflexivity|]. split; [exact Ht|].
  destruct (registration_of_other_kind_is_dropped 0 [] 1 rejectedStore
              rejectedFuture rejectedBoom eq_refl eq_refl) as (H & _).
  apply (H Ht).
Defined.

Lemma addCallback_of_unknown_kind_witness :
  futures pendingStore !! 1 = Some pendingFuture
  ∧ IOther "int" ≠ @INil Z
  ∧ r (obj (val pendingFuture)) = None
  ∧ addCallback 1 [] 1 (IOther "int") 7%Z pendingStore
    = Returned tt (installed 1 pendingFuture emptyVal pendingStore).
Proof.
  assert (Hnil : IOther "int" ≠ @INil Z) by discriminate.
  split; [reflexivity|]. split; [exact Hnil|]. split; [reflexivity|].
  destruct (addCallback_of_unknown_kind 0 1 (IOther "int") 7%Z pendingStore
              pendingFuture eq_refl Hnil) as (H & _);
    try (unfold CALLBACK_DONE, CALLBACK_FAIL, CALLBACK_ALWAYS, CALLBACK_CANCEL; lia).
  apply H. reflexivity.
Defined.

Lemma timeoutNanos_witness :
  (5 ≠ 0)%Z
  ∧ (- 9223372036854 ≤ 5 ≤ 9223372036854)%Z
  ∧ timeoutNanos 5 = 5000000%Z
  ∧ (timeoutNanos 0 < timeoutNanos 5)%Z.
Proof.
  destruct (timeoutNanos_milliseconds 5) as (_ & H1 & H2 & _).
  split; [lia|]. split; [lia|].
  split; [apply H1; lia | apply H2; lia].
Defined.

Lemma registration_ends_witness :
  length ([] : Sched Z) < 1
  ∧ ∀ s', OnSuccess 1 [] 1 (Some bump) pendingStore ≠ OutOfFuel s'.
Proof.
  assert (Hlen : length ([] : Sched Z) < 1) by (simpl; lia).
  split; [exact Hlen|]. intros s'.
  destruct (registration_ends 1 [] 1 pendingStore Hlen s') as (H & _).
  apply H.
Defined.

Lemma OnSuccess_overtaken_witness :
  futures pendingStore !! 1 = Some pendingFuture
  ∧ r (obj (val pendingFuture)) = None
  ∧ addr (val pendingFuture) < next pendingStore
  ∧ ∃ s', OnSuccess 2 [λ s0, state_of (OnSuccess 1 [] 1 (Some bump) s0)] 1
            (Some (λ _, tick)) pendingStore = Returned 1 s'
      ∧ snapshot 1 s'
        = Some (mkVal [Some bump; Some (λ _, tick)] [] [] [] [] None)
      ∧ calls s' = [].
Proof.
  assert (Hlt : addr (val pendingFuture) < next pendingStore) by (simpl; lia).
  split; [reflexivity|]. split; [reflexivity|]. split; [exact Hlt|].
  apply (OnSuccess_overtaken_by_registration 0 1 (λ _, tick) bump pendingStore
           pendingFuture eq_refl eq_refl Hlt).
Defined.

Lemma registration_overtaken_by_settlement_witness :
  futures pendingStore !! 1 = Some pendingFuture
  ∧ r (obj (val pendingFuture)) = None
  ∧ futures (resolveNow (alloc pendingStore).2) !! 1
    = Some (settledFuture pendingFuture 4 resolved5)
  ∧ addr (val (settledFuture pendingFuture 4 resolved5)) ≠ addr (val pendingFuture)
  ∧ OnSuccess 2 [resolveNow] 1 (Some bump) pendingStore
    = Returned 1 (called1 bump (VInt 5) (resolveNow (alloc pendingStore).2)).
Proof.
  assert (Hne : addr (val (settledFuture pendingFuture 4 resolved5))
                ≠ addr (val pendingFuture)) by (simpl; lia).
  split; [reflexivity|]. split; [reflexivity|]. split; [reflexivity|].
  split; [exact Hne|].
  apply (registration_overtaken_by_settlement 0 1 bump resolveNow pendingStore
           pendingFuture (settledFuture pendingFuture 4 resolved5) resolved5
           eq_refl eq_refl eq_refl Hne eq_refl eq_refl).
Defined.

Lemma registrations_keep_call_order_witness :
  futures pendingStore !! 1 = Some pendingFuture
  ∧ r (obj (val pendingFuture)) = None
  ∧ snapshot 1 (run (map (OpOnSuccess 1 1) [Some bump; None; Some (λ _, tick)])
                    pendingStore)
    = Some (mkVal [Some bump; None; Some (λ _, tick)] [] [] [] [] None).
Proof.
  split; [reflexivity|]. split; [reflexivity|].
  destruct (registrations_keep_call_order 1 pendingStore pendingFuture
              eq_refl eq_refl) as (H & _).
  apply (H [Some bump; None; Some (λ _, tick)]).
Defined.

Lemma registrations_commute_witness :
  futures pendingStore !! 1 = Some pendingFuture
  ∧ r (obj (val pendingFuture)) = None
  ∧ run [OpOnSuccess 1 1 (Some bump); OpOnFailure 1 1 (Some (λ _, tick))]
        pendingStore
    = run [OpOnFailure 1 1 (Some (λ _, tick)); OpOnSuccess 1 1 (Some bump)]
          pendingStore.
Proof.
  split; [reflexivity|]. split; [reflexivity|].
  destruct (registrations_of_different_kinds_commute 1 pendingStore pendingFuture
              (Some bump) (Some (λ _, tick)) (Some tick) eq_refl eq_refl)
    as (H & _).
  exact H.
Defined.

Lemma future_calls_preserve_witness :
  wfStore pendingStore
  ∧ Forall (λ op, fromFuture op = true) sampleCalls
  ∧ preserves pendingStore (run sampleCalls pendingStore).
Proof.
  assert (Hops : Forall (λ op : Op Z, fromFuture op = true) sampleCalls).
  { repeat constructor. }
  split; [exact pendingStore_wf|]. split; [exact Hops|].
  apply (future_calls_preserve sampleCalls pendingStore pendingStore_wf Hops).
Defined.

Lemma getPipe_of_stored_pipe_witness :
  futures pendingStore !! 1 = Some pendingFuture
  ∧ r (obj (val pendingFuture)) = None
  ∧ futures pendingStore !! next pendingStore = None
  ∧ noCallbacks [Some chain] = false
  ∧ ∃ fu s' p,
      Pipe 1 [] 1 [Some chain] pendingStore = Returned (fu, true) s'
      ∧ pipes <$> snapshot 1 s' = Some [p]
      ∧ getPipe p true = (Some chain, mkPromise fu)
      ∧ getPipe p false = (None, mkPromise fu).
Proof.
  split; [reflexivity|]. split; [reflexivity|]. split; [reflexivity|].
  split; [reflexivity|].
  apply (getPipe_of_stored_pipe 0 1 [Some chain] pendingStore pendingFuture
           eq_refl eq_refl eq_refl eq_refl).
Defined.

Lemma Pipe_twice_witness :
  wfStore pendingStore
  ∧ futures pendingStore !! 1 = Some pendingFuture
  ∧ r (obj (val pendingFuture)) = None
  ∧ noCallbacks [Some chain] = false
  ∧ noCallbacks [None; Some chain] = false
  ∧ ∃ fu1 fu2 s1 s2,
      Pipe 1 [] 1 [Some chain] pendingStore = Returned (fu1, true) s1
      ∧ Pipe 1 [] 1 [None; Some chain] s1 = Returned (fu2, true) s2
      ∧ fu1 ≠ fu2 ∧ fu1 ≠ 1 ∧ fu2 ≠ 1
      ∧ pipes <$> snapshot 1 s2
        = Some [makePipe [Some chain] (mkPromise fu1);
                makePipe [None; Some chain] (mkPromise fu2)]
      ∧ snapshot fu1 s2 = Some emptyVal
      ∧ snapshot fu2 s2 = Some emptyVal.
Proof.
  split; [exact pendingStore_wf|]. split; [reflexivity|]. split; [reflexivity|].
  split; [reflexivity|]. split; [reflexivity|].
  apply (Pipe_twice 1 [Some chain] [None; Some chain] pendingStore pendingFuture
           pendingStore_wf eq_refl eq_refl eq_refl eq_refl).
Defined.

Lemma Pipe_on_settled_turns_witness :
  settledWith 1 resolved5 resolvedStore
  ∧ noCallbacks [Some chain] = false
  ∧ ∃ s', Pipe 3 [] 1 [Some chain] resolvedStore = OutOfFuel s'
      ∧ calls s' = calls resolvedStore ++ replicate 3 (CallPipe chain (VInt 5)).
Proof.
  assert (Hs : settledWith 1 resolved5 resolvedStore).
  { exists resolvedFuture. split; reflexivity. }
  split; [exact Hs|]. split; [reflexivity|].
  destruct (Pipe_on_settled_turns 3 [] 1 [Some chain] resolvedStore resolved5
              Hs eq_refl) as (H & _).
  apply (H chain); reflexivity.
Defined.

Lemma RequestCancel_many_times_witness :
  futures pendingStore !! 1 = Some pendingFuture
  ∧ (∃ f', futures (run (replicate 3 (OpRequestCancel 1)) pendingStore) !! 1
           = Some f'
       ∧ Id f' = 1%Z ∧ chEnd f' = false ∧ val f' = val pendingFuture
       ∧ cancelStatus f' = 1%Z)
  ∧ IsCancelled 1 (run (replicate 3 (OpRequestCancel 1)) pendingStore)
    = Returned false (run (replicate 3 (OpRequestCancel 1)) pendingStore).
Proof.
  split; [reflexivity|].
  apply (RequestCancel_many_times 1 3 pendingStore pendingFuture eq_refl).
Defined.
